(** * file_stats: a shallow embedding of [file_stats.cpp] and its properties

    The program reads a text file, counts lines, words and bytes, builds a
    word-frequency table, ranks the most frequent words and prints a report
    (optionally a JSON document).

    Conventions of the embedding
    - a byte ([unsigned char]) is an [ascii]; a [std::string] is a [string];
    - [std::uint64_t] and [std::size_t] (LP64) are [N], every increment
      written with its wrap-around modulo [2^64];
    - [std::unordered_map<std::string, std::uint64_t>] is [gmap string N];
    - what the C and C++ libraries leave to the implementation or to the
      environment is a parameter: the active C locale (the program calls
      [setlocale(LC_ALL, "")]), the iteration order of the hash map and
      the order in which [std::partial_sort] leaves the tail;
    - the file system is described as the program meets it: the bytes
      that the first stream on a path delivers, the size that the
      metadata query reports and the bytes that a second stream delivers
      are separate fields, and what an output device keeps of the bytes
      sent to it is a function of the environment. *)

From Stdlib Require Import NArith Ascii String.
From stdpp Require Import gmap strings list fin_maps sorting pretty.
From Equations Require Import Equations.
From Equations.Prop Require Import Logic.

Local Open Scope N_scope.
Local Arguments String.append !_ _ / : simpl nomatch.

(** ** Machine integers *)

Definition two64 : N := 2 ^ 64.

(** Reduction of a mathematical value to a 64-bit unsigned one. *)
Definition wrap64 (n : N) : N := n mod two64.

(** [++x] on a [std::uint64_t]. *)
Definition incr64 (n : N) : N := wrap64 (n + 1).

(** [x += y] on a [std::uint64_t]. *)
Definition add64 (n m : N) : N := wrap64 (n + m).

(** ** The C locale facet used by the program ([<cctype>])

    [std::isalnum], [std::tolower] and the white-space skipping of
    [std::stoul] all consult the current C locale.  [main] installs the
    locale of the environment, so the classification tables are an input
    of the program. *)

Record locale := {
  isalnum : ascii → bool;
  tolower : ascii → ascii;
  isspace : ascii → bool
}.

Definition in_range (lo hi : N) (ch : ascii) : bool :=
  (lo <=? N_of_ascii ch) && (N_of_ascii ch <=? hi).

Definition ascii_digit (ch : ascii) : bool := in_range 48 57 ch.
Definition ascii_upper (ch : ascii) : bool := in_range 65 90 ch.
Definition ascii_lower (ch : ascii) : bool := in_range 97 122 ch.

(** The "C" locale: letters and digits of ASCII only. *)
Definition c_locale : locale := {|
  isalnum ch := ascii_digit ch || ascii_upper ch || ascii_lower ch;
  tolower ch := if ascii_upper ch then ascii_of_N (N_of_ascii ch + 32) else ch;
  isspace ch := (N_of_ascii ch =? 32) || in_range 9 13 ch
|}.

(** A single-byte ISO-8859-1 locale (for instance [fr_FR.ISO-8859-1], or
    the default ANSI code page of a western Windows installation): the
    accented letters 0xC0-0xFF, except the signs 0xD7 and 0xF7, and the
    letters 0xAA, 0xB5 and 0xBA are alphabetic as well. *)
Definition latin1_letter (ch : ascii) : bool :=
  (in_range 192 255 ch && negb (N_of_ascii ch =? 215) && negb (N_of_ascii ch =? 247))
  || (N_of_ascii ch =? 170) || (N_of_ascii ch =? 181) || (N_of_ascii ch =? 186).

Definition latin1_locale : locale := {|
  isalnum ch := isalnum c_locale ch || latin1_letter ch;
  tolower ch :=
    if ascii_upper ch
       || (in_range 192 222 ch && negb (N_of_ascii ch =? 215))
    then ascii_of_N (N_of_ascii ch + 32) else ch;
  isspace ch := isspace c_locale ch || (N_of_ascii ch =? 160)
|}.

(** What the specification calls a word character: an ASCII letter
    (A-Z, a-z) or an ASCII digit (0-9). *)
Definition ascii_alnum (ch : ascii) : Prop :=
  (65 ≤ N_of_ascii ch ≤ 90) ∨ (97 ≤ N_of_ascii ch ≤ 122) ∨ (48 ≤ N_of_ascii ch ≤ 57).

(** ** Configuration and statistics *)

Record Config := {
  input_path : string;
  json_path : string;
  topN : N;
  case_sensitive : bool
}.

(** [Config conf;] with its default member initialisers. *)
Definition default_config : Config := {|
  input_path := ""; json_path := ""; topN := 20; case_sensitive := false
|}.

Record Stats := {
  lines : N;
  words : N;
  bytes : N;
  freq : gmap string N
}.

(** [Stats st;] *)
Definition empty_stats : Stats := {| lines := 0; words := 0; bytes := 0; freq := ∅ |}.

(** ** Tokenizer / counter *)

Section Tokenizer.
Variable loc : locale.

(** [is_word_char]: [std::isalnum(ch) != 0]. *)
Definition is_word_char (ch : ascii) : bool := isalnum loc ch.

(** [token.push_back(c)]. *)
Definition push_back (token : string) (c : ascii) : string :=
  token +:+ String c "".

(** [++st.freq[token]]: [operator[]] value-initialises a missing entry
    to 0 before the increment. *)
Definition freq_incr (token : string) (m : gmap string N) : gmap string N :=
  <[token := incr64 (default 0 (m !! token))]> m.

(** The flush of lines 105-109 and 113-117:
    [if (!token.empty()) { ++st.words; ++st.freq[token]; token.clear(); }]. *)
Definition flush (st : Stats) (token : string) : Stats * string :=
  match token with
  | "" => (st, token)
  | _ =>
      ({| lines := lines st; words := incr64 (words st); bytes := bytes st;
          freq := freq_incr token (freq st) |}, "")
  end.

(** The [for] loop of lines 96-111 over the bytes of one line.
    [std::tolower] receives the byte as a [char]; [tolower loc] is the
    conversion table of the locale for that byte. *)
Fixpoint scan (conf : Config) (st : Stats) (token : string) (line : string)
  : Stats * string :=
  match line with
  | "" => (st, token)
  | String ch rest =>
      if is_word_char ch then
        let c := if negb (case_sensitive conf) then tolower loc ch else ch in
        scan conf st (push_back token c) rest
      else
        let '(st', token') := flush st token in
        scan conf st' token' rest
  end.

(** The body of the [while] loop, lines 88-117, for one line. *)
Definition process_line (conf : Config) (st : Stats) (line : string) : Stats :=
  let st1 := {| lines := incr64 (lines st); words := words st;
                bytes := bytes st; freq := freq st |} in
  let '(st2, token) := scan conf st1 "" line in
  fst (flush st2 token).

End Tokenizer.

(** ** Files and input streams *)

(** A path of the environment, as the program meets it.  A path that is
    absent from the map does not exist.
    - [file_readable]: whether [std::ifstream in(path)] opens it;
    - [file_data]: the bytes that this first stream delivers up to its end
      of file;
    - [file_stat]: what the metadata query [std::filesystem::file_size]
      reports, [None] when it sets the error code (a pipe, a device).  It
      is the [st_size] of the inode: the length of the content for a
      regular file, but nothing ties it to the bytes that a stream
      delivers (the files of [/proc] report 0);
    - [file_again]: the bytes that a second stream on the same path
      delivers once the first one has reached its end of file, [None]
      when the path does not open again.  A regular file delivers the
      same bytes; a pipe that the first stream has drained delivers
      none. *)
Record File := {
  file_data : string;
  file_readable : bool;
  file_stat : option N;
  file_again : option string
}.

(** The number of bytes of the content, which the scan reads; for a
    regular file this is its on-disk byte length. *)
Definition on_disk_size (f : File) : N := N.of_nat (String.length (file_data f)).

(** A regular file that holds [data]: the metadata size is the length of
    the content and every stream reads the same bytes. *)
Definition regular_file (data : string) : File :=
  {| file_data := data; file_readable := true;
     file_stat := Some (N.of_nat (String.length data));
     file_again := Some data |}.

(** A block device that holds [data]: the size query fails, as the path
    is no regular file, and every stream reads the same bytes. *)
Definition device_file (data : string) : File :=
  {| file_data := data; file_readable := true; file_stat := None;
     file_again := Some data |}.

(** A file of [/proc] that generates [data] when it is read: the size
    query succeeds and reports 0. *)
Definition virtual_file (data : string) : File :=
  {| file_data := data; file_readable := true; file_stat := Some 0;
     file_again := Some data |}.

(** A pipe that delivers [data], as [/dev/stdin] with the output of
    another process: the size query fails, and a second stream finds the
    pipe drained. *)
Definition pipe_file (data : string) : File :=
  {| file_data := data; file_readable := true; file_stat := None;
     file_again := Some "" |}.

(** The state of a [std::ifstream]: the bytes not yet extracted and the
    fail state ([!in]). *)
Record ifstream := {
  unread : string;
  failed : bool
}.

(** [std::ifstream in(path)] of line 80, the first stream on the path. *)
Definition ifstream_open (fs : gmap string File) (path : string) : ifstream :=
  match fs !! path with
  | Some f =>
      if file_readable f then {| unread := file_data f; failed := false |}
      else {| unread := ""; failed := true |}
  | None => {| unread := ""; failed := true |}
  end.

(** [std::ifstream in2(path, std::ios::binary)] of line 125, a second
    stream on the path, opened after the first one has been read to its
    end (on POSIX text and binary mode read the same bytes). *)
Definition ifstream_reopen (fs : gmap string File) (path : string) : ifstream :=
  match fs !! path with
  | Some f =>
      match file_again f with
      | Some data => {| unread := data; failed := false |}
      | None => {| unread := ""; failed := true |}
      end
  | None => {| unread := ""; failed := true |}
  end.

(** [std::filesystem::file_size(path, ec)]: [None] when [ec] is set, and
    otherwise the reported size as a [std::uintmax_t] (64 bits). *)
Definition file_size (fs : gmap string File) (path : string) : option N :=
  match fs !! path with
  | Some f => wrap64 <$> file_stat f
  | None => None
  end.

Definition newline : ascii := ascii_of_N 10.

(** The bytes up to the first line feed, and what follows it. *)
Fixpoint until_newline (s : string) : string * string :=
  match s with
  | "" => ("", "")
  | String ch rest =>
      if decide (ch = newline) then ("", rest)
      else let '(l, r) := until_newline rest in (String ch l, r)
  end.

(** [std::getline(in, line)]: the new stream state, the line and the
    truth value of the returned stream.  The delimiter is extracted and
    dropped; extracting nothing sets the fail state. *)
Definition getline (in_ : ifstream) : ifstream * string * bool :=
  if failed in_ then (in_, "", false)
  else
    match unread in_ with
    | "" => ({| unread := ""; failed := true |}, "", false)
    | s => let '(l, r) := until_newline s in
           ({| unread := r; failed := false |}, l, true)
    end.

Fixpoint string_drop (n : nat) (s : string) : string :=
  match n, s with
  | S n', String _ rest => string_drop n' rest
  | _, _ => s
  end.

(** [in.read(buf, n)] followed by [in.gcount()]: the new stream state,
    the truth value of the returned stream and the number of bytes
    extracted.  Fewer than [n] bytes available sets the fail state. *)
Definition read (n : nat) (in_ : ifstream) : ifstream * bool * N :=
  if failed in_ then (in_, false, 0)
  else if (String.length (unread in_) <? n)%nat then
    ({| unread := ""; failed := true |}, false,
     N.of_nat (String.length (unread in_)))
  else
    ({| unread := string_drop n (unread in_); failed := false |}, true,
     N.of_nat n).

Lemma until_newline_length s l r :
  until_newline s = (l, r) → (String.length r ≤ String.length s)%nat.
Proof.
  revert l r. induction s as [|ch s IH]; intros l r; simpl.
  - intros [= <- <-]. done.
  - case_decide.
    + intros [= <- <-]. lia.
    + destruct (until_newline s) as [l' r'] eqn:E. intros [= <- <-].
      specialize (IH _ _ eq_refl). lia.
Qed.

Lemma getline_shrinks in_ in' line :
  getline in_ = (in', line, true) →
  (String.length (unread in') < String.length (unread in_))%nat.
Proof.
  unfold getline. destruct (failed in_); [done|].
  destruct (unread in_) as [|ch s] eqn:E; [done|].
  destruct (until_newline (String ch s)) as [l r] eqn:U.
  intros [= <- <-]. simpl in *.
  case_decide.
  - injection U as <- <-. lia.
  - destruct (until_newline s) as [l' r'] eqn:U'. injection U as <- <-.
    apply until_newline_length in U'. lia.
Qed.

Lemma string_drop_length n s :
  String.length (string_drop n s) = (String.length s - n)%nat.
Proof.
  revert s. induction n as [|n IH]; intros [|ch s]; simpl; auto with lia.
Qed.

(** The progress measure of the size fallback loop. *)
Definition read_measure (in_ : ifstream) : nat :=
  (String.length (unread in_) + (if failed in_ then 0 else 1))%nat.

Lemma read_shrinks n in_ in' b g :
  (0 < n)%nat → read n in_ = (in', b, g) → b = true ∨ 0 < g →
  (read_measure in' < read_measure in_)%nat.
Proof.
  unfold read, read_measure. intros Hn.
  destruct (failed in_) eqn:F.
  - intros [= <- <- <-] [?|?]; [done|lia].
  - destruct (String.length (unread in_) <? n)%nat eqn:Hlt.
    + intros [= <- <- <-] [?|?]; [done|]. simpl. lia.
    + apply Nat.ltb_ge in Hlt. intros [= <- <- <-] _. simpl.
      rewrite string_drop_length. lia.
Qed.

(** ** [analyze_file] *)

(** A value or a thrown [std::runtime_error] with its [what()]. *)
Inductive thrown (A : Type) : Type :=
  | Ok (a : A)
  | Throw (what : string).
Arguments Ok {A} a.
Arguments Throw {A} what.

(** [sizeof(buf)] for [char buf[1 << 14]]. *)
Definition buf_size : nat := Nat.shiftl 1 14.

Lemma buf_size_pos : (0 < buf_size)%nat.
Proof. apply Nat.ltb_lt. by vm_compute. Qed.

Section Analyzer.
Variable loc : locale.

(** The [while (std::getline(in, line))] loop of lines 87-118. *)
Equations? read_lines (conf : Config) (st : Stats) (in_ : ifstream) : Stats
  by wf (String.length (unread in_)) lt :=
  read_lines conf st in_ with inspect (getline in_) := {
    | exist _ (in', line, true) H =>
        read_lines conf (process_line loc conf st line) in'
    | exist _ (_, _, false) _ => st }.
Proof. by apply getline_shrinks in H. Qed.

(** The [while (in2.read(buf, sizeof(buf)) || in2.gcount() > 0)] loop of
    lines 128-130, accumulating into [st.bytes]. *)
Equations? count_bytes (total : N) (in2 : ifstream) : N
  by wf (read_measure in2) lt :=
  count_bytes total in2 with inspect (read buf_size in2) := {
    | exist _ (in', true, g) H => count_bytes (add64 total g) in'
    | exist _ (in', false, g) H with inspect (0 <? g) := {
        | exist _ true Hg => count_bytes (add64 total g) in'
        | exist _ false _ => total } }.
Proof.
  - apply read_shrinks in H; auto using buf_size_pos.
  - apply read_shrinks in H; auto using buf_size_pos.
    right. by apply N.ltb_lt.
Qed.

(** [analyze_file], lines 76-134. *)
Definition analyze_file (fs : gmap string File) (conf : Config) : thrown Stats :=
  let in_ := ifstream_open fs (input_path conf) in
  if failed in_ then
    Throw ("Cannot open input file: " +:+ input_path conf)
  else
    let st := read_lines conf empty_stats in_ in
    let size :=
      match file_size fs (input_path conf) with
      | Some n => n
      | None => count_bytes 0 (ifstream_reopen fs (input_path conf))
      end in
    Ok {| lines := lines st; words := words st; bytes := size; freq := freq st |}.

End Analyzer.

(** ** Top-K selector *)

(** The comparator handed to [std::partial_sort] (lines 140-143):
    [if (a.second != b.second) return a.second > b.second;
     return a.first < b.first;]
    [std::string::operator<] compares bytes as [unsigned char]. *)
Definition comp (a b : string * N) : bool :=
  if negb (a.2 =? b.2) then b.2 <? a.2 else String.ltb a.1 b.1.

(** "Sorted with respect to [comp]" in the sense of the C++ standard: no
    later element compares before an earlier one. *)
Definition not_after (a b : string * N) : Prop := comp b a = false.

Global Instance not_after_dec : RelDecision not_after.
Proof. intros a b. unfold not_after. apply _. Defined.

(** The contract of
    [std::partial_sort(first, first + m, last, comp)]: a rearrangement of
    the range whose first [m] elements are sorted and are not after any
    element of the tail, which is left in an unspecified order. *)
Definition std_partial_sort
    (partial_sort : nat → list (string * N) → list (string * N)) : Prop :=
  ∀ (m : nat) (v : list (string * N)),
    (m ≤ length v)%nat →
    partial_sort m v ≡ₚ v ∧
    StronglySorted not_after (take m (partial_sort m v)) ∧
    ∀ x y, x ∈ take m (partial_sort m v) → y ∈ drop m (partial_sort m v) →
           not_after x y.

(** The contract of iterating over an [std::unordered_map]: every entry
    once, in an unspecified order. *)
Definition iteration_order
    (to_vector : gmap string N → list (string * N)) : Prop :=
  ∀ m, to_vector m ≡ₚ map_to_list m.

Section TopK.
(** [v(freq.begin(), freq.end())] *)
Variable to_vector : gmap string N → list (string * N).
(** [std::partial_sort] with the comparator [comp]; the first argument
    is [middle - first]. *)
Variable partial_sort : nat → list (string * N) → list (string * N).

(** [top_k], lines 137-146. *)
Definition top_k (freq : gmap string N) (k : N) : list (string * N) :=
  let v := to_vector freq in
  let v := partial_sort (N.to_nat (N.min k (N.of_nat (length v)))) v in
  if k <? N.of_nat (length v) then take (N.to_nat k) v else v.
End TopK.

(** ** Command line, report and [main] *)

Definition LF : string := String newline "".

(** The double quote, [0x22]. *)
Definition dquote : ascii := ascii_of_N 34.
Definition DQ : string := String dquote "".

(** [print_help]: the text sent to standard output. *)
Definition print_help (exe : string) : string :=
  "File Stats - Text file analysis" +:+ LF +:+ LF
  +:+ "Usage:" +:+ LF
  +:+ "  " +:+ exe
  +:+ " <input.txt> [--top N] [--json out.json] [--case-sensitive] [--help]"
  +:+ LF +:+ LF
  +:+ "Options:" +:+ LF
  +:+ "  --top N            Show top N most frequent words (default: 20)" +:+ LF
  +:+ "  --json out.json    Export results to JSON file" +:+ LF
  +:+ "  --case-sensitive   Word frequency is case-sensitive (default: false)" +:+ LF
  +:+ "  --help             Show this help and exit" +:+ LF.

(** The exceptions of [std::stoul]. *)
Inductive stoul_result :=
  | Stoul (n : N)
  | Invalid_argument
  | Out_of_range.

Fixpoint skip_space (loc : locale) (s : string) : string :=
  match s with
  | "" => ""
  | String ch rest => if isspace loc ch then skip_space loc rest else s
  end.

(** The decimal digits at the head of a string, most significant first. *)
Fixpoint leading_digits (s : string) : list N :=
  match s with
  | "" => []
  | String ch rest =>
      if ascii_digit ch then (N_of_ascii ch - 48) :: leading_digits rest else []
  end.

Definition decimal_value (ds : list N) : N := foldl (λ acc d, 10 * acc + d) 0 ds.

(** [std::stoul(str)] in base 10, on an LP64 platform, as [strtoul]
    converts: white space is skipped, one sign is accepted, the longest
    run of digits is converted and what follows is ignored.  No digit
    throws [std::invalid_argument]; a magnitude that does not fit 64 bits
    throws [std::out_of_range]; a minus sign negates the value as an
    unsigned number. *)
Definition stoul (loc : locale) (str : string) : stoul_result :=
  let s := skip_space loc str in
  let '(negative, s) :=
    match s with
    | String ch rest =>
        if decide (ch = ascii_of_N 45) then (true, rest)
        else if decide (ch = ascii_of_N 43) then (false, rest)
        else (false, s)
    | "" => (false, s)
    end in
  match leading_digits s with
  | [] => Invalid_argument
  | ds =>
      let v := decimal_value ds in
      if two64 <=? v then Out_of_range
      else Stoul (if negative then wrap64 (two64 - v) else v)
  end.

(** How [parse_args] ends: it returns [true] or [false] (with what it
    wrote to standard error), it prints the help and calls
    [std::exit(0)], or an exception of [std::stoul] leaves it. *)
Inductive parsed :=
  | Parsed (ok : bool) (conf : Config) (err : string)
  | Help_exit
  | Uncaught (e : stoul_result).

(** The [for] loop of lines 39-54 over [argv[2..]]. *)
Fixpoint parse_options (loc : locale) (conf : Config) (args : list string)
  : parsed :=
  match args with
  | [] => Parsed true conf ""
  | a :: rest =>
      if decide (a = "--help" ∨ a = "-h") then Help_exit
      else
        match decide (a = "--top"), rest with
        | left _, value :: rest' =>
            match stoul loc value with
            | Stoul n =>
                parse_options loc
                  {| input_path := input_path conf; json_path := json_path conf;
                     topN := n; case_sensitive := case_sensitive conf |} rest'
            | e => Uncaught e
            end
        | _, _ =>
            match decide (a = "--json"), rest with
            | left _, value :: rest' =>
                parse_options loc
                  {| input_path := input_path conf; json_path := value;
                     topN := topN conf; case_sensitive := case_sensitive conf |}
                  rest'
            | _, _ =>
                if decide (a = "--case-sensitive") then
                  parse_options loc
                    {| input_path := input_path conf; json_path := json_path conf;
                       topN := topN conf; case_sensitive := true |} rest
                else Parsed false conf ("Unknown argument: " +:+ a +:+ LF)
            end
        end
  end.

(** [parse_args], lines 36-57. *)
Definition parse_args (loc : locale) (argv : list string) (conf : Config)
  : parsed :=
  match argv with
  | _ :: path :: options =>
      parse_options loc
        {| input_path := path; json_path := json_path conf;
           topN := topN conf; case_sensitive := case_sensitive conf |} options
  | _ => Parsed false conf ""
  end.

(** [std::setw(w)] before an integer: right-aligned, padded with spaces. *)
Definition setw (w : nat) (s : string) : string :=
  string_of_list_ascii (replicate (w - String.length s) (ascii_of_N 32)) +:+ s.

(** The human-readable report of lines 231-241. *)
Definition report (conf : Config) (st : Stats) (top : list (string * N))
  : string :=
  "File:   " +:+ input_path conf +:+ LF
  +:+ "Lines:  " +:+ pretty (lines st) +:+ LF
  +:+ "Words:  " +:+ pretty (words st) +:+ LF
  +:+ "Bytes:  " +:+ pretty (bytes st) +:+ LF
  +:+ "Top " +:+ pretty (N.of_nat (length top)) +:+ " words"
  +:+ (if case_sensitive conf then " (case-sensitive)" else " (case-insensitive)")
  +:+ ":" +:+ LF
  +:+ foldr (λ wc acc, "  " +:+ setw 8 (pretty wc.2) +:+ "  " +:+ wc.1 +:+ LF +:+ acc)
        "" top.

Definition hex_digit (n : N) : ascii :=
  if n <? 10 then ascii_of_N (48 + n) else ascii_of_N (87 + n).

(** [json_escape], lines 165-188. *)
Fixpoint json_escape (s : string) : string :=
  match s with
  | "" => ""
  | String c rest =>
      let n := N_of_ascii c in
      (if n =? 34 then "\" +:+ DQ
       else if n =? 92 then "\\"
       else if n =? 8 then "\b"
       else if n =? 12 then "\f"
       else if n =? 10 then "\n"
       else if n =? 13 then "\r"
       else if n =? 9 then "\t"
       else if n <? 32 then
         "\u00" +:+ String (hex_digit (n / 16)) (String (hex_digit (n mod 16)) "")
       else String c "")
      +:+ json_escape rest
  end.

(** The document that [write_json] sends to the output file, lines
    197-213; [now] is the result of [iso8601_utc_now]. *)
Definition json_document (now : string) (conf : Config) (st : Stats)
    (top : list (string * N)) : string :=
  let fix items (l : list (string * N)) : string :=
    match l with
    | [] => ""
    | wc :: l' =>
        "    { " +:+ DQ +:+ "word" +:+ DQ +:+ ": " +:+ DQ +:+ json_escape wc.1
        +:+ DQ +:+ ", " +:+ DQ +:+ "count" +:+ DQ +:+ ": " +:+ pretty wc.2 +:+ " }"
        +:+ (match l' with [] => "" | _ => "," end) +:+ LF +:+ items l'
    end in
  "{" +:+ LF
  +:+ "  " +:+ DQ +:+ "tool" +:+ DQ +:+ ": " +:+ DQ +:+ "file-stats" +:+ DQ +:+ "," +:+ LF
  +:+ "  " +:+ DQ +:+ "timestamp" +:+ DQ +:+ ": " +:+ DQ +:+ now +:+ DQ +:+ "," +:+ LF
  +:+ "  " +:+ DQ +:+ "input_path" +:+ DQ +:+ ": " +:+ DQ
      +:+ json_escape (input_path conf) +:+ DQ +:+ "," +:+ LF
  +:+ "  " +:+ DQ +:+ "lines" +:+ DQ +:+ ": " +:+ pretty (lines st) +:+ "," +:+ LF
  +:+ "  " +:+ DQ +:+ "words" +:+ DQ +:+ ": " +:+ pretty (words st) +:+ "," +:+ LF
  +:+ "  " +:+ DQ +:+ "bytes" +:+ DQ +:+ ": " +:+ pretty (bytes st) +:+ "," +:+ LF
  +:+ "  " +:+ DQ +:+ "case_sensitive" +:+ DQ +:+ ": "
      +:+ (if case_sensitive conf then "true" else "false") +:+ "," +:+ LF
  +:+ "  " +:+ DQ +:+ "top_words" +:+ DQ +:+ ": [" +:+ LF
  +:+ items top
  +:+ "  ]" +:+ LF
  +:+ "}" +:+ LF.

(** The environment of one run.  [env_stored path doc] is what the file
    at [path] holds once the bytes [doc] have been sent to a stream on it
    and the stream is closed: [doc] itself where the device accepts every
    write, less on a full disk or a device that rejects writes. *)
Record Env := {
  env_locale : locale;            (* what [setlocale(LC_ALL, "")] installs *)
  env_files : gmap string File;   (* the files that exist *)
  env_writable : string → bool;   (* whether a path can be opened for writing *)
  env_stored : string → string → string;
  env_now : string                (* the clock, as [iso8601_utc_now] prints it *)
}.

(** How the process ends: [main] returns (or [std::exit] is called) with
    a code, or [std::terminate] aborts it after an exception that nothing
    catches. *)
Inductive status :=
  | Exit (code : N)
  | Terminate.

(** What one run leaves behind; [stdout] and [stderr] hold what the
    program itself wrote (not the diagnostic of the C++ runtime when it
    aborts). *)
Record Outcome := {
  ended : status;
  stdout : string;
  stderr : string;
  written : option (string * string)   (* the JSON file: path and content *)
}.

Section Main.
Variable to_vector : gmap string N → list (string * N).
Variable partial_sort : nat → list (string * N) → list (string * N).

(** [write_json]: what the output file holds afterwards, or the
    exception thrown when it cannot be opened.  The stream is tested once,
    after it is opened (line 193); nothing tests it after the writes of
    lines 197-213, so a write that the device rejects goes unnoticed. *)
Definition write_json (env : Env) (conf : Config) (st : Stats)
    (top : list (string * N)) : thrown string :=
  if env_writable env (json_path conf) then
    Ok (env_stored env (json_path conf)
          (json_document (env_now env) conf st top))
  else Throw ("Cannot write JSON file: " +:+ json_path conf).

(** [main], lines 216-255.  [parse_args] runs before the [try] block. *)
Definition main (env : Env) (argv : list string) : Outcome :=
  let exe := hd "" argv in
  match parse_args (env_locale env) argv default_config with
  | Help_exit =>
      {| ended := Exit 0; stdout := print_help exe; stderr := ""; written := None |}
  | Uncaught _ =>
      {| ended := Terminate; stdout := ""; stderr := ""; written := None |}
  | Parsed false _ err =>
      {| ended := Exit 1; stdout := print_help exe; stderr := err; written := None |}
  | Parsed true conf _ =>
      match analyze_file (env_locale env) (env_files env) conf with
      | Throw what =>
          {| ended := Exit 2; stdout := "";
             stderr := "Error: " +:+ what +:+ LF; written := None |}
      | Ok st =>
          let top := top_k to_vector partial_sort (freq st) (topN conf) in
          let out := report conf st top in
          match json_path conf with
          | "" => {| ended := Exit 0; stdout := out; stderr := ""; written := None |}
          | _ =>
              match write_json env conf st top with
              | Throw what =>
                  {| ended := Exit 2; stdout := out;
                     stderr := "Error: " +:+ what +:+ LF; written := None |}
              | Ok doc =>
                  {| ended := Exit 0;
                     stdout := out +:+ LF +:+ "JSON written to: "
                               +:+ json_path conf +:+ LF;
                     stderr := "";
                     written := Some (json_path conf, doc) |}
              end
          end
      end
  end.
End Main.


(** * Part II: the vocabulary of the specification *)

(** A reference implementation of the two library behaviours, used to run
    the program on concrete inputs: the map is iterated in the order of
    [map_to_list] and the whole vector is sorted. *)
Definition sort_all (m : nat) (v : list (string * N)) : list (string * N) :=
  merge_sort not_after v.

(** The full ranking of a frequency table. *)
Definition ranking (freq : gmap string N) : list (string * N) :=
  merge_sort not_after (map_to_list freq).

(** The ranking rule in the words of the specification: count descending,
    ties broken by word ascending in byte-lexicographic order. *)
Inductive bytes_lt : string → string → Prop :=
  | bytes_lt_nil ch s : bytes_lt "" (String ch s)
  | bytes_lt_head c1 s1 c2 s2 :
      N_of_ascii c1 < N_of_ascii c2 → bytes_lt (String c1 s1) (String c2 s2)
  | bytes_lt_tail ch s1 s2 :
      bytes_lt s1 s2 → bytes_lt (String ch s1) (String ch s2).

Definition ranks_before (a b : string * N) : Prop :=
  b.2 < a.2 ∨ (a.2 = b.2 ∧ bytes_lt a.1 b.1).

(** ** Lines and tokens in the words of the specification *)

Fixpoint all_chars (p : ascii → bool) (s : string) : bool :=
  match s with
  | "" => true
  | String ch rest => p ch && all_chars p rest
  end.

Fixpoint string_map (f : ascii → ascii) (s : string) : string :=
  match s with
  | "" => ""
  | String ch rest => String (f ch) (string_map f rest)
  end.

(** The string is empty or begins with a byte that satisfies [p]. *)
Definition starts_with (p : ascii → bool) (s : string) : Prop :=
  match s with
  | "" => True
  | String ch _ => p ch = true
  end.

(** The lines of a file: the maximal runs of bytes that a line feed or
    the end of the file terminates. *)
Inductive line_split : string → list string → Prop :=
  | line_split_eof : line_split "" []
  | line_split_last l :
      l ≠ "" → all_chars (λ ch, bool_decide (ch ≠ newline)) l = true →
      line_split l [l]
  | line_split_lf l rest ls :
      all_chars (λ ch, bool_decide (ch ≠ newline)) l = true →
      line_split rest ls →
      line_split (l +:+ String newline rest) (l :: ls).

Section Tokens.
Variable loc : locale.

Definition separator (ch : ascii) : bool := negb (is_word_char loc ch).

(** The tokens of a line: it decomposes into separators, a token,
    separators, a token ... where every token is a non-empty run of
    word characters that no word character precedes or follows. *)
Inductive tokenization : string → list string → Prop :=
  | tokenization_end seps :
      all_chars separator seps = true → tokenization seps []
  | tokenization_token seps t rest ts :
      all_chars separator seps = true →
      t ≠ "" → all_chars (is_word_char loc) t = true →
      starts_with separator rest →
      tokenization rest ts →
      tokenization (seps +:+ t +:+ rest) (t :: ts).

(** Case folding of a token, [std::tolower] on every byte unless the
    run is case-sensitive. *)
Definition fold_case (conf : Config) (t : string) : string :=
  if case_sensitive conf then t else string_map (tolower loc) t.

(** The tokens of a line, given the word characters [pending] that
    precede it. *)
Fixpoint raw_tokens (pending : string) (line : string) : list string :=
  match line with
  | "" => match pending with "" => [] | _ => [pending] end
  | String ch rest =>
      if is_word_char loc ch then raw_tokens (push_back pending ch) rest
      else match pending with "" => [] | _ => [pending] end
           ++ raw_tokens "" rest
  end.

(** One token counted: the effect of a flush of a non-empty buffer. *)
Definition count_token (st : Stats) (t : string) : Stats :=
  fst (flush st t).
End Tokens.

(** The lines that the [getline] loop extracts from a stream. *)
Equations? stream_lines (in_ : ifstream) : list string
  by wf (String.length (unread in_)) lt :=
  stream_lines in_ with inspect (getline in_) := {
    | exist _ (in', line, true) H => line :: stream_lines in'
    | exist _ (_, _, false) _ => [] }.
Proof. by apply getline_shrinks in H. Qed.

(** The number of entries of a list equal to [w]. *)
Definition occurrences (w : string) (l : list string) : nat :=
  length (filter (w =.) l).

(** The sum of all the counts stored in a frequency table. *)
Definition total_count (m : gmap string N) : N :=
  map_fold (λ _ c acc, c + acc) 0 m.

(** The frequency table built from a list of tokens. *)
Definition tally (ts : list string) : gmap string N :=
  foldl (λ m t, freq_incr t m) ∅ ts.

(** The tokens of a sequence of lines, each line on its own. *)
Definition lines_tokens (loc : locale) (ls : list string) : list string :=
  concat (raw_tokens loc "" <$> ls).

(** A locale that classifies and folds the ASCII bytes as the "C" locale
    does. *)
Definition ascii_compatible (loc : locale) : Prop :=
  ∀ ch, N_of_ascii ch < 128 →
        isalnum loc ch = isalnum c_locale ch ∧
        tolower loc ch = tolower c_locale ch.

(** All the bytes are ASCII. *)
Definition ascii_only (s : string) : bool :=
  all_chars (λ ch, N_of_ascii ch <? 128) s.

(** The files whose byte length the program can learn: the metadata
    query reports the length of the content, or it fails on a path that a
    second stream reads again in full. *)
Definition size_agrees (f : File) : Prop :=
  match file_stat f with
  | Some n => n = on_disk_size f
  | None => file_again f = Some (file_data f)
  end.

(** ** JSON strings *)

(** The bytes that [json_escape] appends for one byte of its argument. *)
Definition escape_byte (c : ascii) : string :=
  let n := N_of_ascii c in
  if n =? 34 then "\" +:+ DQ
  else if n =? 92 then "\\"
  else if n =? 8 then "\b"
  else if n =? 12 then "\f"
  else if n =? 10 then "\n"
  else if n =? 13 then "\r"
  else if n =? 9 then "\t"
  else if n <? 32 then
    "\u00" +:+ String (hex_digit (n / 16)) (String (hex_digit (n mod 16)) "")
  else String c "".

Definition is_hex (c : ascii) : bool :=
  ascii_digit c || in_range 97 102 c || in_range 65 70 c.

(** The value of a hexadecimal digit. *)
Definition hex_value (c : ascii) : N :=
  if ascii_digit c then N_of_ascii c - 48
  else if in_range 97 102 c then N_of_ascii c - 87
  else N_of_ascii c - 55.

(** The content of a JSON string as RFC 8259 defines it, on bytes: no
    quotation mark, no control character, and a reverse solidus only as
    the head of an escape (a reverse solidus followed by a quotation
    mark, a reverse solidus, a solidus, [b], [f], [n], [r], [t], or by
    [u] and four hexadecimal digits). *)
Fixpoint json_string_body (s : string) : bool :=
  match s with
  | "" => true
  | String c rest =>
      if N_of_ascii c =? 92 then
        match rest with
        | String e rest' =>
            let k := N_of_ascii e in
            if (k =? 34) || (k =? 92) || (k =? 47) || (k =? 98) || (k =? 102)
               || (k =? 110) || (k =? 114) || (k =? 116)
            then json_string_body rest'
            else if k =? 117 then
              match rest' with
              | String h1 (String h2 (String h3 (String h4 rest''))) =>
                  is_hex h1 && is_hex h2 && is_hex h3 && is_hex h4
                  && json_string_body rest''
              | _ => false
              end
            else false
        | "" => false
        end
      else (32 <=? N_of_ascii c) && negb (N_of_ascii c =? 34)
           && json_string_body rest
  end.

(** A reader of the escapes that [json_escape] writes: the bytes that a
    JSON string content stands for (for [u] escapes below [0x100]). *)
Fixpoint json_unescape (s : string) : option string :=
  match s with
  | "" => Some ""
  | String c rest =>
      if N_of_ascii c =? 92 then
        match rest with
        | String e rest' =>
            let k := N_of_ascii e in
            if k =? 117 then
              match rest' with
              | String h1 (String h2 (String h3 (String h4 rest''))) =>
                  if is_hex h1 && is_hex h2 && is_hex h3 && is_hex h4
                     && (hex_value h1 =? 0) && (hex_value h2 =? 0)
                  then String (ascii_of_N (16 * hex_value h3 + hex_value h4))
                         <$> json_unescape rest''
                  else None
              | _ => None
              end
            else
              let byte :=
                if k =? 34 then Some 34
                else if k =? 92 then Some 92
                else if k =? 47 then Some 47
                else if k =? 98 then Some 8
                else if k =? 102 then Some 12
                else if k =? 110 then Some 10
                else if k =? 114 then Some 13
                else if k =? 116 then Some 9
                else None in
              match byte with
              | Some b => String (ascii_of_N b) <$> json_unescape rest'
              | None => None
              end
        | "" => None
        end
      else if (32 <=? N_of_ascii c) && negb (N_of_ascii c =? 34)
      then String c <$> json_unescape rest
      else None
  end.

(** ** Command line *)

(** [conf.topN = n], [conf.json_path = path] and
    [conf.case_sensitive = true]. *)
Definition set_topN (conf : Config) (n : N) : Config :=
  {| input_path := input_path conf; json_path := json_path conf;
     topN := n; case_sensitive := case_sensitive conf |}.

Definition set_json_path (conf : Config) (path : string) : Config :=
  {| input_path := input_path conf; json_path := path;
     topN := topN conf; case_sensitive := case_sensitive conf |}.

Definition set_case_sensitive (conf : Config) : Config :=
  {| input_path := input_path conf; json_path := json_path conf;
     topN := topN conf; case_sensitive := true |}.

(** The branch that one iteration of the loop of [parse_args] takes on the
    argument [a], followed by [rest]. *)
Inductive option_case (loc : locale) (conf : Config) (a : string)
    (rest : list string) : parsed → Prop :=
  | option_help :
      a = "--help" ∨ a = "-h" → option_case loc conf a rest Help_exit
  | option_top value rest' n :
      a = "--top" → rest = value :: rest' → stoul loc value = Stoul n →
      option_case loc conf a rest (parse_options loc (set_topN conf n) rest')
  | option_top_throws value rest' :
      a = "--top" → rest = value :: rest' → (∀ n, stoul loc value ≠ Stoul n) →
      option_case loc conf a rest (Uncaught (stoul loc value))
  | option_json value rest' :
      a = "--json" → rest = value :: rest' →
      option_case loc conf a rest
        (parse_options loc (set_json_path conf value) rest')
  | option_case_sensitive :
      a = "--case-sensitive" →
      option_case loc conf a rest
        (parse_options loc (set_case_sensitive conf) rest)
  | option_unknown :
      a ≠ "--help" → a ≠ "-h" → a ≠ "--case-sensitive" →
      (a = "--top" ∨ a = "--json" → rest = []) →
      option_case loc conf a rest
        (Parsed false conf ("Unknown argument: " +:+ a +:+ LF)).

(** ** Lines of a file *)

(** The number of line feeds of a string. *)
Fixpoint count_lf (s : string) : nat :=
  match s with
  | "" => 0%nat
  | String ch rest => ((if decide (ch = newline) then 1 else 0) + count_lf rest)%nat
  end.

(** The string is not empty and its last byte is not a line feed. *)
Fixpoint unterminated (s : string) : bool :=
  match s with
  | "" => false
  | String ch "" => bool_decide (ch ≠ newline)
  | String _ rest => unterminated rest
  end.

(** The carriage return, [0x0D]. *)
Definition CR : ascii := ascii_of_N 13.

(** The file with every line feed preceded by a carriage return. *)
Fixpoint to_crlf (s : string) : string :=
  match s with
  | "" => ""
  | String ch rest =>
      if decide (ch = newline)
      then String CR (String newline (to_crlf rest))
      else String ch (to_crlf rest)
  end.

(** The sum of the counts of a list of entries. *)
Definition sum_counts (l : list (string * N)) : N :=
  foldr (λ wc acc, wc.2 + acc) 0 l.

(** ** Sample inputs *)

(** A small environment on which the statements below are exercised: the
    file of the specification's scenario. *)
Definition demo_text : string :=
  "Hello hello WORLD" +:+ LF +:+ "world world" +:+ LF.

Definition demo_files : gmap string File :=
  {[ "demo.txt" := device_file demo_text ]}.

Definition demo_conf : Config :=
  {| input_path := "demo.txt"; json_path := ""; topN := 2;
     case_sensitive := false |}.

Definition demo_freq : gmap string N := {[ "world" := 3; "hello" := 2 ]}.

(** Another iteration order of the map: the reverse one. *)
Definition reverse_order (m : gmap string N) : list (string * N) :=
  reverse (map_to_list m).

(** The byte [0xE9] (e acute in ISO-8859-1) alone in a file. *)
Definition accent_files : gmap string File :=
  {[ "demo.txt" := regular_file (String (ascii_of_N 233) "") ]}.

(** A file of [/proc], which holds three words on one line, and the same
    line arriving through a pipe. *)
Definition virtual_files : gmap string File :=
  {[ "/proc/version" := virtual_file ("Linux version 6" +:+ LF) ]}.

Definition pipe_files : gmap string File :=
  {[ "/dev/stdin" := pipe_file ("Linux version 6" +:+ LF) ]}.

(** An environment without any file. *)
Definition empty_env : Env :=
  {| env_locale := c_locale; env_files := ∅; env_writable := λ _, true;
     env_stored := λ _ doc, doc;
     env_now := "2025-09-22T17:03:00Z" |}.

(** The scenario's file in an environment where every path opens for
    writing and no write is stored, as on a full device. *)
Definition full_env : Env :=
  {| env_locale := c_locale; env_files := demo_files;
     env_writable := λ _, true;
     env_stored := λ _ _, ""; env_now := "2025-09-22T17:03:00Z" |}.

(** * Part III: properties of the model *)

(** *** The order *)

Lemma string_ltb_bytes_lt s1 s2 : String.ltb s1 s2 = true ↔ bytes_lt s1 s2.
Proof.
  unfold String.ltb. revert s2.
  induction s1 as [|c1 s1 IH]; intros [|c2 s2]; simpl.
  - split; [done|inv 1].
  - split; [constructor|done].
  - split; [done|inv 1].
  - unfold Ascii.compare.
    destruct (N.compare_spec (N_of_ascii c1) (N_of_ascii c2)) as [E|E|E].
    + assert (c1 = c2) as ->.
      { by rewrite <-(ascii_N_embedding c1), E, ascii_N_embedding. }
      rewrite IH. split; [by constructor|]. inv 1; [lia|done].
    + split; [by constructor|done].
    + split; [done|]. inv 1; [lia|lia].
Qed.

Lemma string_ltb_leb s1 s2 : String.ltb s1 s2 = negb (String.leb s2 s1).
Proof.
  unfold String.ltb, String.leb. rewrite (String.compare_antisym s2 s1).
  by destruct (String.compare s1 s2).
Qed.

Lemma not_after_alt a b :
  not_after a b ↔ b.2 < a.2 ∨ (a.2 = b.2 ∧ String.le a.1 b.1).
Proof.
  unfold not_after, comp, String.le. rewrite string_ltb_leb.
  destruct (N.eqb_spec b.2 a.2) as [E|E]; simpl.
  - rewrite negb_false_iff, Is_true_true. split; [auto|]. intros [?|[_ ?]]; [lia|done].
  - rewrite N.ltb_ge. split; [lia|]. intros [?|[? _]]; [lia|done].
Qed.

Global Instance not_after_trans : Transitive not_after.
Proof.
  intros a b c. rewrite !not_after_alt.
  intros [?|[E1 L1]] [?|[E2 L2]]; [left; lia..|].
  right. split; [congruence|]. by etrans.
Qed.

Global Instance not_after_total : Total not_after.
Proof.
  intros a b. rewrite !not_after_alt.
  destruct (N.lt_total a.2 b.2) as [?|[E|?]]; [by right; left| |by left; left].
  destruct (total String.le a.1 b.1); [left|right]; right; auto.
Qed.

Global Instance not_after_antisym : AntiSymm (=) not_after.
Proof.
  intros [w1 c1] [w2 c2]. rewrite !not_after_alt. simpl.
  intros [?|[E1 L1]] [?|[E2 L2]]; try lia.
  f_equal; [|done]. by apply (anti_symm String.le).
Qed.

Lemma not_after_ranks_before a b : not_after a b → a ≠ b → ranks_before a b.
Proof.
  destruct a as [w1 c1], b as [w2 c2].
  unfold not_after, comp, ranks_before. simpl. intros H Hne.
  destruct (N.eqb_spec c2 c1) as [E|E]; simpl in H.
  - subst. right. split; [done|].
    apply string_ltb_bytes_lt. rewrite string_ltb_leb.
    rewrite string_ltb_leb in H. apply negb_false_iff in H.
    destruct (String.leb w2 w1) eqn:L; [|done]. exfalso. apply Hne.
    f_equal. by apply String.leb_antisym.
  - apply N.ltb_ge in H. left. lia.
Qed.

Lemma ranks_before_comp a b : ranks_before a b ↔ comp a b = true.
Proof.
  unfold ranks_before, comp. rewrite <-string_ltb_bytes_lt.
  destruct (N.eqb_spec a.2 b.2) as [E|E]; simpl.
  - split; [intros [?|[_ ?]]; [lia|done]|auto].
  - rewrite N.ltb_lt. split; [intros [?|[? _]]; [done|done]|auto].
Qed.

(** Two entries for distinct words never tie. *)
Lemma ranks_before_total a b :
  a.1 ≠ b.1 → ranks_before a b ∨ ranks_before b a.
Proof.
  intros Hne. destruct (total not_after a b); [left|right];
    apply not_after_ranks_before; try done; intros E; apply Hne; by rewrite E.
Qed.

(** *** The ranking *)

Lemma ranking_Permutation freq : ranking freq ≡ₚ map_to_list freq.
Proof. apply merge_sort_Permutation. Qed.

Lemma ranking_sorted freq : StronglySorted not_after (ranking freq).
Proof. apply Sorted_StronglySorted; [apply _|]. apply Sorted_merge_sort; apply _. Qed.

Lemma ranking_length freq : length (ranking freq) = size freq.
Proof. by rewrite ranking_Permutation, length_map_to_list. Qed.

Lemma ranking_NoDup freq : NoDup (ranking freq).
Proof. rewrite ranking_Permutation. apply NoDup_map_to_list. Qed.

Lemma elem_of_ranking freq w c : (w, c) ∈ ranking freq ↔ freq !! w = Some c.
Proof. by rewrite ranking_Permutation, elem_of_map_to_list. Qed.

Lemma sort_all_std : std_partial_sort sort_all.
Proof.
  intros m v _. unfold sort_all.
  assert (StronglySorted not_after (merge_sort not_after v)) as Hs.
  { apply Sorted_StronglySorted; [apply _|]. apply Sorted_merge_sort; apply _. }
  split; [apply merge_sort_Permutation|].
  assert (StronglySorted not_after
            (take m (merge_sort not_after v) ++ drop m (merge_sort not_after v)))
    as Hs' by (by rewrite take_drop).
  apply StronglySorted_app in Hs' as (Hx & H1 & _). auto.
Qed.

Lemma map_to_list_iteration_order : iteration_order map_to_list.
Proof. by intros m. Qed.

(** A strictly-sorted view of a list sorted by [not_after] without
    duplicates. *)
Lemma StronglySorted_strict l :
  StronglySorted not_after l → NoDup l → StronglySorted ranks_before l.
Proof.
  induction 1 as [|x l Hl IH Hx]; intros Hnd; [constructor|].
  apply NoDup_cons in Hnd as [Hin Hnd]. constructor; [auto|].
  apply Forall_forall. intros y Hy. rewrite Forall_forall in Hx.
  apply not_after_ranks_before; [auto|]. intros ->. done.
Qed.

Section TopK_correct.
Variable to_vector : gmap string N → list (string * N).
Variable partial_sort : nat → list (string * N) → list (string * N).
Hypothesis to_vector_ok : iteration_order to_vector.
Hypothesis partial_sort_ok : std_partial_sort partial_sort.

(** Whatever the iteration order and the order of the unsorted tail,
    [top_k] returns the first [k] entries of the full ranking. *)
Lemma top_k_ranking freq k :
  top_k to_vector partial_sort freq k = take (N.to_nat k) (ranking freq).
Proof.
  unfold top_k.
  set (v := to_vector freq).
  set (m := N.to_nat (N.min k (N.of_nat (length v)))).
  assert (m ≤ length v)%nat as Hm by (unfold m; lia).
  destruct (partial_sort_ok m v Hm) as (Hperm & Hsorted & Hcross).
  set (v' := partial_sort m v) in *.
  assert (length v' = length v) as Hlen by by rewrite Hperm.
  assert (take m v' = take m (ranking freq)) as Htake.
  { assert (take m v' ++ merge_sort not_after (drop m v') = ranking freq) as <-.
    { apply (StronglySorted_unique not_after).
      - apply StronglySorted_app_2; [|done|].
        + intros x y Hx Hy. apply (Hcross x y Hx).
          by rewrite merge_sort_Permutation in Hy.
        + apply Sorted_StronglySorted; [apply _|].
          apply Sorted_merge_sort; apply _.
      - apply ranking_sorted.
      - rewrite merge_sort_Permutation, take_drop, Hperm.
        unfold v. by rewrite (to_vector_ok freq), ranking_Permutation. }
    rewrite take_app_length'; [done|]. rewrite length_take. lia. }
  assert (length (ranking freq) = length v) as Hlr.
  { unfold v. by rewrite ranking_Permutation, (to_vector_ok freq). }
  rewrite Hlen.
  destruct (N.ltb_spec k (N.of_nat (length v))) as [Hk|Hk].
  - assert (m = N.to_nat k) as Em by (unfold m; lia).
    by rewrite <-Em.
  - assert (m = length v) as Em by (unfold m; lia).
    rewrite <-(take_ge v' m) by lia.
    rewrite Htake, !take_ge; [done|lia..].
Qed.

Lemma top_k_length freq k :
  N.of_nat (length (top_k to_vector partial_sort freq k))
  = N.min k (N.of_nat (size freq)).
Proof. rewrite top_k_ranking, length_take, ranking_length. lia. Qed.
End TopK_correct.

(** *** Strings *)

Lemma app_nil_r_s s : s +:+ "" = s.
Proof. induction s; cbn; congruence. Qed.

Lemma app_assoc_s s1 s2 s3 : (s1 +:+ s2) +:+ s3 = s1 +:+ s2 +:+ s3.
Proof. induction s1; cbn; congruence. Qed.

Lemma app_length_s s1 s2 :
  String.length (s1 +:+ s2) = (String.length s1 + String.length s2)%nat.
Proof. induction s1; cbn; congruence. Qed.

Lemma push_back_cons token ch rest :
  push_back token ch +:+ rest = token +:+ String ch rest.
Proof. unfold push_back. by rewrite app_assoc_s. Qed.

Lemma push_back_not_empty token ch : push_back token ch ≠ "".
Proof. by destruct token. Qed.

Lemma string_map_push_back f token ch :
  string_map f (push_back token ch) = push_back (string_map f token) (f ch).
Proof. unfold push_back. induction token; cbn; congruence. Qed.

Lemma string_map_empty f s : string_map f s = "" ↔ s = "".
Proof. by destruct s. Qed.

Lemma all_chars_app p s1 s2 :
  all_chars p (s1 +:+ s2) = all_chars p s1 && all_chars p s2.
Proof. induction s1 as [|ch s1 IH]; cbn; [done|]. by rewrite IH, andb_assoc. Qed.

Lemma all_chars_push_back p token ch :
  all_chars p token = true → p ch = true → all_chars p (push_back token ch) = true.
Proof. intros H1 H2. unfold push_back. rewrite all_chars_app, H1. cbn. by rewrite H2. Qed.

(** *** The scan of a line yields its tokens *)

Section Tokens_correct.
Variable loc : locale.

Lemma tokenization_sep ch rest ts :
  separator loc ch = true → tokenization loc rest ts →
  tokenization loc (String ch rest) ts.
Proof.
  intros Hch [seps Hs|seps t rest' ts' Hs Ht Hw Hr Hts].
  - apply tokenization_end. simpl. by rewrite Hch.
  - apply (tokenization_token loc (String ch seps)); [|done..].
    simpl. by rewrite Hch.
Qed.

Lemma tokenization_first t rest ts :
  t ≠ "" → all_chars (is_word_char loc) t = true →
  starts_with (separator loc) rest → tokenization loc rest ts →
  tokenization loc (t +:+ rest) (t :: ts).
Proof. intros. by apply (tokenization_token loc ""). Qed.

Lemma raw_tokens_tokenization line pending :
  all_chars (is_word_char loc) pending = true →
  tokenization loc (pending +:+ line) (raw_tokens loc pending line).
Proof.
  revert pending. induction line as [|ch rest IH]; intros pending Hp; simpl.
  - rewrite app_nil_r_s. destruct pending as [|c p].
    + by apply tokenization_end.
    + rewrite <-(app_nil_r_s (String c p)) at 1.
      apply tokenization_first; [done|done|done|by apply tokenization_end].
  - destruct (is_word_char loc ch) eqn:Hch.
    + rewrite <-push_back_cons. apply IH. by apply all_chars_push_back.
    + assert (separator loc ch = true) as Hsep by (unfold separator; by rewrite Hch).
      assert (tokenization loc (String ch rest) (raw_tokens loc "" rest)) as Hrest.
      { apply tokenization_sep; [done|]. by apply (IH ""). }
      destruct pending as [|c p]; [done|].
      by apply tokenization_first.
Qed.

Lemma raw_tokens_length line pending :
  (length (raw_tokens loc pending line)
   ≤ (match pending with "" => 0 | _ => 1 end) + String.length line)%nat.
Proof.
  revert pending. induction line as [|ch rest IH]; intros pending; simpl.
  - destruct pending; simpl; lia.
  - destruct (is_word_char loc ch).
    + specialize (IH (push_back pending ch)).
      destruct (push_back pending ch) eqn:E; [by apply push_back_not_empty in E|].
      destruct pending; lia.
    + rewrite length_app. specialize (IH ""). simpl in IH.
      destruct pending; simpl; lia.
Qed.

Variable conf : Config.

Lemma fold_case_empty t : fold_case loc conf t = "" ↔ t = "".
Proof. unfold fold_case. destruct (case_sensitive conf); [done|apply string_map_empty]. Qed.

Lemma fold_case_push_back pending ch :
  fold_case loc conf (push_back pending ch)
  = push_back (fold_case loc conf pending)
      (if negb (case_sensitive conf) then tolower loc ch else ch).
Proof.
  unfold fold_case. destruct (case_sensitive conf); simpl; [done|].
  apply string_map_push_back.
Qed.

Lemma flush_empty st : flush st "" = (st, "").
Proof. done. Qed.

Lemma flush_token st t : t ≠ "" → flush st t = (count_token st t, "").
Proof. by destruct t. Qed.

Lemma scan_raw_tokens line pending st :
  count_token (scan loc conf st (fold_case loc conf pending) line).1
              (scan loc conf st (fold_case loc conf pending) line).2
  = foldl (λ s t, count_token s (fold_case loc conf t)) st
      (raw_tokens loc pending line).
Proof.
  revert pending st. induction line as [|ch rest IH]; intros pending st; simpl.
  - destruct pending as [|c p]; simpl; [|done].
    by replace (fold_case loc conf "") with "" by (symmetry; by apply fold_case_empty).
  - unfold is_word_char at 1 2. fold (is_word_char loc ch).
    destruct (is_word_char loc ch) eqn:Hch.
    + rewrite <-fold_case_push_back. apply IH.
    + destruct pending as [|c p].
      * replace (fold_case loc conf "") with "" by (symmetry; by apply fold_case_empty).
        rewrite flush_empty. simpl.
        replace "" with (fold_case loc conf "") at 1 2 by by apply fold_case_empty.
        apply IH.
      * rewrite flush_token by (rewrite fold_case_empty; done). simpl.
        replace "" with (fold_case loc conf "") at 1 2 by by apply fold_case_empty.
        apply IH.
Qed.

(** A line adds one to the line count and counts its tokens. *)
Lemma process_line_tokens st line :
  process_line loc conf st line
  = foldl (λ s t, count_token s (fold_case loc conf t))
      {| lines := incr64 (lines st); words := words st;
         bytes := bytes st; freq := freq st |}
      (raw_tokens loc "" line).
Proof.
  unfold process_line. rewrite <-scan_raw_tokens.
  replace (fold_case loc conf "") with "" by (symmetry; by apply fold_case_empty).
  by destruct (scan loc conf _ "" line).
Qed.

Lemma read_lines_step st in_ in' line :
  getline in_ = (in', line, true) →
  read_lines loc conf st in_
  = read_lines loc conf (process_line loc conf st line) in'.
Proof.
  intros H. rewrite read_lines_equation_1. unfold inspect.
  assert (∀ r (e : getline in_ = r), r = (in', line, true) →
            read_lines_unfold_clause_1 loc conf st in_ (exist _ r e)
            = read_lines loc conf (process_line loc conf st line) in') as Hgen.
  { intros [[i l] []] e [= -> ->]. by simp read_lines. }
  by apply Hgen.
Qed.

Lemma read_lines_stop st in_ in' line :
  getline in_ = (in', line, false) → read_lines loc conf st in_ = st.
Proof.
  intros H. rewrite read_lines_equation_1. unfold inspect.
  assert (∀ r (e : getline in_ = r), r = (in', line, false) →
            read_lines_unfold_clause_1 loc conf st in_ (exist _ r e)
            = st) as Hgen.
  { intros [[i l] []] e [= -> ->]. by simp read_lines. }
  by apply Hgen.
Qed.

Lemma read_lines_fold st in_ :
  read_lines loc conf st in_
  = foldl (process_line loc conf) st (stream_lines in_).
Proof.
  revert st. funelim (stream_lines in_); intros st.
  - erewrite read_lines_step by done. simpl. auto.
  - by erewrite read_lines_stop.
Qed.
End Tokens_correct.

(** *** The lines of a stream *)

Lemma until_newline_spec s l r :
  until_newline s = (l, r) →
  all_chars (λ ch, bool_decide (ch ≠ newline)) l = true ∧
  ((s = l ∧ r = "") ∨ s = l +:+ String newline r).
Proof.
  revert l r. induction s as [|ch s IH]; intros l r; simpl.
  - intros [= <- <-]. auto.
  - case_decide as Hch.
    + intros [= <- <-]. subst ch. split; [done|]. by right.
    + destruct (until_newline s) as [l' r'] eqn:E. intros [= <- <-].
      destruct (IH _ _ eq_refl) as [Hl Hs]. split.
      * simpl. rewrite Hl. by rewrite bool_decide_true.
      * destruct Hs as [[-> ->] | ->]; [by left|by right].
Qed.

Lemma getline_true in_ in' line :
  getline in_ = (in', line, true) →
  failed in_ = false ∧ failed in' = false ∧ unread in_ ≠ "" ∧
  until_newline (unread in_) = (line, unread in').
Proof.
  unfold getline. destruct (failed in_); [done|].
  destruct (unread in_) as [|ch s] eqn:E; [done|].
  destruct (until_newline (String ch s)) as [l r]. by intros [= <- <-].
Qed.

Lemma getline_false in_ in' line :
  getline in_ = (in', line, false) → failed in_ = true ∨ unread in_ = "".
Proof.
  unfold getline. destruct (failed in_); [auto|].
  destruct (unread in_) as [|ch s] eqn:E; [auto|].
  by destruct (until_newline (String ch s)).
Qed.

Lemma line_split_empty ls : line_split "" ls → ls = [].
Proof.
  inversion 1 as [|l Hl|l rest ls' Hl Hrest E]; [done|done|].
  by destruct l.
Qed.

(** What a call of [getline] in the context tells about the streams. *)
Ltac getline_facts :=
  match goal with
  | H : getline _ = (_, _, true) |- _ =>
      destruct (getline_true _ _ _ H) as (Hgf & Hgf' & Hgne & Hgu)
  | H : getline _ = (_, _, false) |- _ =>
      destruct (getline_false _ _ _ H) as [Hg|Hg]
  end.

Lemma stream_lines_split in_ :
  failed in_ = false → line_split (unread in_) (stream_lines in_).
Proof.
  funelim (stream_lines in_); intros Hf; getline_facts.
  - match goal with IH : _ → line_split _ _ |- _ => specialize (IH Hgf') as Hrec end.
    apply until_newline_spec in Hgu as [Hl [[Hs Hr]|Hs]].
    + rewrite Hr in Hrec. apply line_split_empty in Hrec as ->.
      rewrite Hs in *. by apply line_split_last.
    + rewrite Hs. by apply line_split_lf.
  - congruence.
  - rewrite Hg. constructor.
Qed.

Lemma stream_lines_failed in_ : failed in_ = true → stream_lines in_ = [].
Proof.
  intros Hf. funelim (stream_lines in_); [|done].
  getline_facts. congruence.
Qed.

(** The lines of a stream hold no more bytes than the stream. *)
Lemma stream_lines_length in_ :
  (sum_list (String.length <$> stream_lines in_) ≤ String.length (unread in_))%nat.
Proof.
  funelim (stream_lines in_); simpl; [|lia].
  getline_facts.
  match goal with IH : (sum_list _ ≤ _)%nat |- _ => rename IH into Hrec end.
  apply until_newline_spec in Hgu as [_ [[Hs Hr]|Hs]].
  - rewrite Hr in Hrec. rewrite <-Hs. unfold fmap in *. simpl in *. lia.
  - rewrite Hs, app_length_s. unfold fmap in *. simpl in *. lia.
Qed.

(** *** The size fallback reads every byte *)

Lemma count_bytes_failed total in2 :
  failed in2 = true → count_bytes total in2 = total.
Proof.
  intros Hf. rewrite count_bytes_equation_1. unfold inspect.
  assert (∀ r (e : read buf_size in2 = r), r = (in2, false, 0) →
            count_bytes_unfold_clause_1 total in2 (exist _ r e) = total) as Hgen.
  { intros [[i b] g] e [= -> -> ->]. by simp count_bytes. }
  apply Hgen. unfold read. by rewrite Hf.
Qed.

Lemma wrap64_small n : n < two64 → wrap64 n = n.
Proof. apply N.mod_small. Qed.

Lemma read_true n in2 in' g :
  read n in2 = (in', true, g) →
  failed in' = false ∧ g = N.of_nat n ∧
  (n ≤ String.length (unread in2))%nat ∧
  String.length (unread in') = (String.length (unread in2) - n)%nat.
Proof.
  unfold read. destruct (failed in2); [done|].
  destruct (String.length (unread in2) <? n)%nat eqn:E; [done|].
  apply Nat.ltb_ge in E. intros [= <- <-]. simpl.
  by rewrite string_drop_length.
Qed.

Lemma read_false n in2 in' g :
  read n in2 = (in', false, g) → failed in2 = false →
  failed in' = true ∧ g = N.of_nat (String.length (unread in2)).
Proof.
  unfold read. intros H Hf. rewrite Hf in H.
  destruct (String.length (unread in2) <? n)%nat; [|done].
  by injection H as <- <-.
Qed.

(** *** Counting tokens *)

Lemma wrap64_lt n : wrap64 n < two64.
Proof. apply N.mod_lt. done. Qed.

Lemma wrap64_add_l a b : wrap64 (wrap64 a + b) = wrap64 (a + b).
Proof. apply N.Div0.add_mod_idemp_l. Qed.

Lemma wrap64_add_r a b : wrap64 (a + wrap64 b) = wrap64 (a + b).
Proof. apply N.Div0.add_mod_idemp_r. Qed.

Lemma wrap64_idemp a : wrap64 (wrap64 a) = wrap64 a.
Proof. apply N.Div0.mod_mod. Qed.

(** The size fallback in general: the sum is kept in 64 bits. *)
Lemma count_bytes_mod total in2 :
  failed in2 = false → total < two64 →
  count_bytes total in2 = wrap64 (total + N.of_nat (String.length (unread in2))).
Proof.
  funelim (count_bytes total in2); intros Hf Hlt.
  - match goal with H : read _ _ = _ |- _ =>
      destruct (read_true _ _ _ _ H) as (Hf' & -> & Hle & Hlen) end.
    match goal with IH : _ → _ → count_bytes _ _ = _ |- _ =>
      rewrite IH by (done || apply wrap64_lt) end.
    unfold add64. rewrite wrap64_add_l, Hlen. f_equal. lia.
  - match goal with H : read _ _ = _ |- _ =>
      destruct (read_false _ _ _ _ H Hf) as (Hf' & ->) end.
    by rewrite count_bytes_failed by done.
  - match goal with H : read _ _ = _ |- _ =>
      destruct (read_false _ _ _ _ H Hf) as (Hf' & Hg) end.
    match goal with H : (0 <? _) = false |- _ =>
      pose proof (proj1 (N.ltb_ge _ _) H) end.
    rewrite wrap64_small by lia. lia.
Qed.

Lemma total_count_empty : total_count ∅ = 0.
Proof. apply map_fold_empty. Qed.

Lemma total_count_insert m t c :
  m !! t = None → total_count (<[t:=c]> m) = c + total_count m.
Proof. intros. unfold total_count. rewrite map_fold_insert_L; [done|intros; lia|done]. Qed.

Lemma total_count_delete m t c :
  m !! t = Some c → total_count m = c + total_count (delete t m).
Proof.
  intros. unfold total_count.
  erewrite (map_fold_delete_L _ _ t c m); [done|intros; lia|done].
Qed.

Lemma total_count_lookup m t c : m !! t = Some c → c ≤ total_count m.
Proof. intros H. rewrite (total_count_delete _ _ _ H). lia. Qed.

Lemma total_count_incr_mod m t :
  wrap64 (total_count (freq_incr t m)) = wrap64 (total_count m + 1).
Proof.
  unfold freq_incr, incr64. destruct (m !! t) as [c|] eqn:E; simpl.
  - rewrite <-insert_delete_eq, total_count_insert by apply lookup_delete_eq.
    rewrite (total_count_delete _ _ _ E), wrap64_add_l. f_equal. lia.
  - rewrite total_count_insert by done. rewrite wrap64_add_l. f_equal. lia.
Qed.

Lemma total_count_incr m t :
  total_count m + 1 < two64 →
  total_count (freq_incr t m) = total_count m + 1.
Proof.
  intros Hlt. unfold freq_incr, incr64. destruct (m !! t) as [c|] eqn:E; simpl.
  - pose proof (total_count_lookup _ _ _ E).
    rewrite <-insert_delete_eq, total_count_insert by apply lookup_delete_eq.
    rewrite (total_count_delete _ _ _ E) in *. rewrite wrap64_small; lia.
  - rewrite total_count_insert by done. rewrite wrap64_small; [lia|done].
Qed.

Lemma tally_nil : tally [] = ∅.
Proof. done. Qed.

Lemma tally_snoc ts t : tally (ts ++ [t]) = freq_incr t (tally ts).
Proof. unfold tally. by rewrite foldl_snoc. Qed.

Lemma tally_total_mod ts :
  wrap64 (total_count (tally ts)) = wrap64 (N.of_nat (length ts)).
Proof.
  induction ts as [|t ts IH] using rev_ind; [by rewrite tally_nil, total_count_empty|].
  rewrite tally_snoc, total_count_incr_mod, <-wrap64_add_l, IH, wrap64_add_l.
  f_equal. rewrite length_app. simpl. lia.
Qed.

Lemma tally_total ts :
  N.of_nat (length ts) < two64 → total_count (tally ts) = N.of_nat (length ts).
Proof.
  induction ts as [|t ts IH] using rev_ind; [by rewrite tally_nil, total_count_empty|].
  rewrite length_app. simpl. intros Hlt.
  rewrite tally_snoc, total_count_incr; rewrite IH; lia.
Qed.

Lemma occurrences_snoc w ts t :
  occurrences w (ts ++ [t])
  = (occurrences w ts + if decide (w = t) then 1 else 0)%nat.
Proof.
  unfold occurrences. rewrite filter_app, length_app. f_equal.
  rewrite filter_cons. by case_decide.
Qed.

(** Every word is stored with the number of its occurrences. *)
Lemma tally_lookup ts w :
  tally ts !! w =
    if decide (occurrences w ts = 0%nat) then None
    else Some (wrap64 (N.of_nat (occurrences w ts))).
Proof.
  induction ts as [|t ts IH] using rev_ind; [done|].
  rewrite tally_snoc, occurrences_snoc. unfold freq_incr.
  destruct (decide (w = t)) as [->|Hne].
  - rewrite lookup_insert_eq, IH. unfold incr64.
    destruct (decide (occurrences t ts + 1 = 0)%nat) as [?|_]; [lia|].
    f_equal. case_decide as E; simpl.
    + by rewrite E.
    + rewrite wrap64_add_l. f_equal. lia.
  - rewrite lookup_insert_ne by done. rewrite IH, Nat.add_0_r. done.
Qed.

Lemma tally_dom ts : dom (tally ts) = list_to_set ts.
Proof.
  induction ts as [|t ts IH] using rev_ind; [by rewrite tally_nil, dom_empty_L|].
  rewrite tally_snoc. unfold freq_incr. rewrite dom_insert_L, IH.
  rewrite list_to_set_app_L. simpl.
  by rewrite (right_id_L ∅ (∪)), (comm_L (∪)).
Qed.

(** Folding case never adds distinct words. *)
Lemma size_list_to_set_fmap (f : string → string) (ts : list string) :
  (size (list_to_set (C:=gset string) (f <$> ts))
   ≤ size (list_to_set (C:=gset string) ts))%nat.
Proof.
  induction ts as [|t ts IH]; [done|].
  rewrite fmap_cons, !list_to_set_cons.
  destruct (decide (t ∈ ts)) as [Hin|Hin].
  - assert (f t ∈ f <$> ts) as Hf by by apply list_elem_of_fmap_2.
    rewrite <-(elem_of_list_to_set (C:=gset string)) in Hin, Hf.
    rewrite !subseteq_union_1_L; [done|by apply singleton_subseteq_l..].
  - rewrite (size_union {[t]}).
    + rewrite size_union_alt, !size_singleton.
      assert (size (list_to_set (C:=gset string) (f <$> ts) ∖ {[f t]})
              ≤ size (list_to_set (C:=gset string) (f <$> ts)))%nat
        by (apply subseteq_size, subseteq_difference_l; done).
      lia.
    + rewrite disjoint_singleton_l, elem_of_list_to_set. done.
Qed.

(** *** The statistics of a whole file *)

Section Stats_correct.
Variable loc : locale.
Variable conf : Config.

Lemma raw_tokens_not_empty line pending :
  Forall (λ t, t ≠ "") (raw_tokens loc pending line).
Proof.
  revert pending. induction line as [|ch rest IH]; intros pending; simpl.
  - destruct pending; by repeat constructor.
  - destruct (is_word_char loc ch); [done|].
    apply Forall_app. split; [|done]. destruct pending; by repeat constructor.
Qed.

Lemma count_token_not_empty st t :
  t ≠ "" →
  count_token st t
  = {| lines := lines st; words := incr64 (words st); bytes := bytes st;
       freq := freq_incr t (freq st) |}.
Proof. by destruct t. Qed.

Lemma count_tokens_stats st ts :
  Forall (λ t, t ≠ "") ts → words st < two64 →
  foldl (λ s t, count_token s (fold_case loc conf t)) st ts
  = {| lines := lines st;
       words := wrap64 (words st + N.of_nat (length ts));
       bytes := bytes st;
       freq := foldl (λ m t, freq_incr t m) (freq st)
                 (fold_case loc conf <$> ts) |}.
Proof.
  intros Hts. revert st. induction Hts as [|t ts Ht _ IH]; intros st Hw.
  - destruct st. simpl in *. rewrite N.add_0_r, wrap64_small; done.
  - rewrite fmap_cons. cbn [foldl length].
    assert (fold_case loc conf t ≠ "") as Hne by by rewrite fold_case_empty.
    rewrite count_token_not_empty by done.
    rewrite IH by apply wrap64_lt. cbn [lines words bytes freq].
    f_equal. unfold incr64. rewrite wrap64_add_l. f_equal. lia.
Qed.

Lemma process_line_stats st line :
  words st < two64 →
  process_line loc conf st line
  = {| lines := incr64 (lines st);
       words := wrap64 (words st + N.of_nat (length (raw_tokens loc "" line)));
       bytes := bytes st;
       freq := foldl (λ m t, freq_incr t m) (freq st)
                 (fold_case loc conf <$> raw_tokens loc "" line) |}.
Proof.
  intros Hw. rewrite process_line_tokens.
  by rewrite count_tokens_stats by (apply raw_tokens_not_empty || done).
Qed.

Lemma process_lines_stats st ls :
  lines st < two64 → words st < two64 →
  foldl (process_line loc conf) st ls
  = {| lines := wrap64 (lines st + N.of_nat (length ls));
       words := wrap64 (words st + N.of_nat (length (lines_tokens loc ls)));
       bytes := bytes st;
       freq := foldl (λ m t, freq_incr t m) (freq st)
                 (fold_case loc conf <$> lines_tokens loc ls) |}.
Proof.
  revert st. induction ls as [|l ls IH]; intros st Hl Hw.
  - destruct st. simpl in *. rewrite !N.add_0_r, !wrap64_small; done.
  - cbn [foldl]. rewrite process_line_stats by done.
    rewrite IH by apply wrap64_lt. cbn [lines words bytes freq length].
    unfold lines_tokens. rewrite fmap_cons, concat_cons, length_app, fmap_app, foldl_app.
    f_equal.
    + unfold incr64. rewrite wrap64_add_l. f_equal. lia.
    + rewrite wrap64_add_l. f_equal. lia.
Qed.

(** Every token holds at least one byte of its line. *)
Lemma lines_tokens_length ls :
  (length (lines_tokens loc ls) ≤ sum_list (String.length <$> ls))%nat.
Proof.
  unfold lines_tokens. induction ls as [|l ls IH]; [done|].
  rewrite !fmap_cons, concat_cons, length_app.
  pose proof (raw_tokens_length loc l "") as Hl.
  unfold fmap in *. simpl in *. lia.
Qed.

Lemma lines_tokens_tokenization ls :
  Forall2 (tokenization loc) ls (raw_tokens loc "" <$> ls).
Proof.
  induction ls as [|l ls IH]; [constructor|].
  rewrite fmap_cons. constructor; [|done].
  by apply (raw_tokens_tokenization loc l "").
Qed.

(** What [analyze_file] returns for a file that opens. *)
Lemma analyze_file_Ok fs st :
  analyze_file loc fs conf = Ok st →
  ∃ f, fs !! input_path conf = Some f ∧ file_readable f = true ∧
    let ls := stream_lines {| unread := file_data f; failed := false |} in
    lines st = wrap64 (N.of_nat (length ls)) ∧
    words st = wrap64 (N.of_nat (length (lines_tokens loc ls))) ∧
    freq st = tally (fold_case loc conf <$> lines_tokens loc ls) ∧
    bytes st = match file_size fs (input_path conf) with
               | Some n => n
               | None => count_bytes 0 (ifstream_reopen fs (input_path conf))
               end.
Proof.
  unfold analyze_file, ifstream_open.
  destruct (fs !! input_path conf) as [f|] eqn:Ef; [|done].
  destruct (file_readable f) eqn:Er; [|done]. cbn [failed].
  intros [= <-]. exists f. split; [done|]. split; [done|].
  rewrite read_lines_fold, process_lines_stats by done.
  cbn [lines words bytes freq empty_stats]. rewrite !N.add_0_l. done.
Qed.

(** A readable file is analysed without failure. *)
Lemma analyze_file_readable fs f :
  fs !! input_path conf = Some f → file_readable f = true →
  let ls := stream_lines {| unread := file_data f; failed := false |} in
  analyze_file loc fs conf
  = Ok {| lines := wrap64 (N.of_nat (length ls));
          words := wrap64 (N.of_nat (length (lines_tokens loc ls)));
          bytes := match file_size fs (input_path conf) with
                   | Some n => n
                   | None => count_bytes 0 (ifstream_reopen fs (input_path conf))
                   end;
          freq := tally (fold_case loc conf <$> lines_tokens loc ls) |}.
Proof.
  intros Hf Hr. unfold analyze_file, ifstream_open. rewrite Hf, Hr. cbn [failed].
  rewrite read_lines_fold, process_lines_stats by done.
  cbn [lines words bytes freq empty_stats]. by rewrite !N.add_0_l.
Qed.

(** The byte count comes from the metadata query, and from a second
    stream when the query fails. *)
Lemma analyze_file_size fs st f :
  analyze_file loc fs conf = Ok st → fs !! input_path conf = Some f →
  bytes st = match file_stat f with
             | Some n => wrap64 n
             | None =>
                 match file_again f with
                 | Some data => wrap64 (N.of_nat (String.length data))
                 | None => 0
                 end
             end.
Proof.
  intros H Hf. apply analyze_file_Ok in H as (f' & Hf' & _ & _ & _ & _ & Hb).
  rewrite Hb. unfold file_size, ifstream_reopen. rewrite Hf.
  destruct (file_stat f) as [n|]; [done|]. cbn [fmap option_fmap option_map].
  destruct (file_again f) as [data|].
  - rewrite count_bytes_mod; [by rewrite N.add_0_l|done|by vm_compute].
  - by rewrite count_bytes_failed.
Qed.

(** For a file whose size agrees with its content the byte count is the
    length of the content. *)
Lemma analyze_file_size_agrees fs st f :
  analyze_file loc fs conf = Ok st → fs !! input_path conf = Some f →
  on_disk_size f < two64 → size_agrees f → bytes st = on_disk_size f.
Proof.
  intros H Hf Hsize Hag. rewrite (analyze_file_size fs st f H Hf).
  unfold size_agrees in Hag. destruct (file_stat f) as [n|].
  - rewrite Hag. by apply wrap64_small.
  - rewrite Hag. by apply wrap64_small.
Qed.

Lemma analyze_file_Throw fs :
  (∀ f, fs !! input_path conf = Some f → file_readable f = false) →
  analyze_file loc fs conf
  = Throw ("Cannot open input file: " +:+ input_path conf).
Proof.
  intros H. unfold analyze_file, ifstream_open.
  destruct (fs !! input_path conf) as [f|] eqn:Ef; [|done].
  by rewrite (H f eq_refl).
Qed.
End Stats_correct.

(** *** The decompositions are unique *)

Section Tokens_unique.
Variable loc : locale.

Lemma separator_not_word ch :
  separator loc ch = true → is_word_char loc ch = true → False.
Proof. unfold separator. by intros ?%negb_true_iff ?; congruence. Qed.

(** A run of word characters followed by a separator (or by nothing) is
    determined by the string it starts. *)
Lemma word_run_unique t1 rest1 t2 rest2 :
  all_chars (is_word_char loc) t1 = true → starts_with (separator loc) rest1 →
  all_chars (is_word_char loc) t2 = true → starts_with (separator loc) rest2 →
  t1 +:+ rest1 = t2 +:+ rest2 → t1 = t2 ∧ rest1 = rest2.
Proof.
  revert t2. induction t1 as [|c t1 IH]; intros [|c2 t2]; simpl;
    intros Hw1 Hr1 Hw2 Hr2 E.
  - done.
  - subst rest1. apply andb_true_iff in Hw2 as [Hc _].
    destruct (separator_not_word c2); done.
  - subst rest2. apply andb_true_iff in Hw1 as [Hc _].
    destruct (separator_not_word c); done.
  - injection E as -> E.
    apply andb_true_iff in Hw1 as [_ Hw1]. apply andb_true_iff in Hw2 as [_ Hw2].
    destruct (IH t2 Hw1 Hr1 Hw2 Hr2 E) as [-> ->]. done.
Qed.

Lemma first_token_unique seps1 t1 rest1 seps2 t2 rest2 :
  all_chars (separator loc) seps1 = true → t1 ≠ "" →
  all_chars (is_word_char loc) t1 = true → starts_with (separator loc) rest1 →
  all_chars (separator loc) seps2 = true → t2 ≠ "" →
  all_chars (is_word_char loc) t2 = true → starts_with (separator loc) rest2 →
  seps1 +:+ t1 +:+ rest1 = seps2 +:+ t2 +:+ rest2 →
  seps1 = seps2 ∧ t1 = t2 ∧ rest1 = rest2.
Proof.
  intros Hs1 Hn1 Hw1 Hr1 Hs2 Hn2 Hw2 Hr2. revert seps2 Hs2.
  induction seps1 as [|c s1 IH]; intros [|c2 s2] Hs2 E; simpl in *.
  - split; [done|]. by apply word_run_unique.
  - destruct t1 as [|d t1]; [done|]. simpl in *. injection E as -> _.
    apply andb_true_iff in Hw1 as [Hd _]. apply andb_true_iff in Hs2 as [Hc _].
    destruct (separator_not_word c2); done.
  - destruct t2 as [|d t2]; [done|]. simpl in *. injection E as -> _.
    apply andb_true_iff in Hw2 as [Hd _]. apply andb_true_iff in Hs1 as [Hc _].
    destruct (separator_not_word d); done.
  - injection E as -> E.
    apply andb_true_iff in Hs1 as [_ Hs1]. apply andb_true_iff in Hs2 as [_ Hs2].
    destruct (IH Hs1 s2 Hs2 E) as (-> & -> & ->). done.
Qed.

Lemma separators_hold_no_token seps t rest :
  all_chars (separator loc) (seps +:+ t +:+ rest) = true →
  t ≠ "" → all_chars (is_word_char loc) t = true → False.
Proof.
  rewrite !all_chars_app, !andb_true_iff. intros (_ & Ht & _) Hne Hw.
  destruct t as [|c t]; [done|]. simpl in *.
  apply andb_true_iff in Ht as [Hc _]. apply andb_true_iff in Hw as [Hc' _].
  by destruct (separator_not_word c).
Qed.

(** A line has exactly one sequence of tokens. *)
Lemma tokenization_unique s ts1 ts2 :
  tokenization loc s ts1 → tokenization loc s ts2 → ts1 = ts2.
Proof.
  intros H1. revert ts2.
  induction H1 as [seps Hs|seps t rest ts Hs Ht Hw Hr Hts IH]; intros ts2 H2.
  - inversion H2 as [|seps2 t2 rest2 ts2' Hs2 Ht2 Hw2 Hr2 Hts2 E]; [done|].
    subst. by destruct (separators_hold_no_token seps2 t2 rest2).
  - inversion H2 as [seps2 Hs2 E|seps2 t2 rest2 ts2' Hs2 Ht2 Hw2 Hr2 Hts2 E].
    + subst. by destruct (separators_hold_no_token seps t rest).
    + subst. destruct (first_token_unique seps2 t2 rest2 seps t rest)
        as (-> & -> & ->); try done.
      f_equal. by apply IH.
Qed.
End Tokens_unique.

Lemma line_unique l1 rest1 l2 rest2 :
  all_chars (λ ch, bool_decide (ch ≠ newline)) l1 = true →
  all_chars (λ ch, bool_decide (ch ≠ newline)) l2 = true →
  l1 +:+ String newline rest1 = l2 +:+ String newline rest2 →
  l1 = l2 ∧ rest1 = rest2.
Proof.
  revert l2. induction l1 as [|c l1 IH]; intros [|c2 l2]; simpl; intros H1 H2 E.
  - by injection E as ->.
  - injection E as <- _. done.
  - injection E as -> _. done.
  - injection E as -> E.
    apply andb_true_iff in H1 as [_ H1]. apply andb_true_iff in H2 as [_ H2].
    by destruct (IH l2 H1 H2 E) as [-> ->].
Qed.

Lemma line_holds_no_newline l rest :
  all_chars (λ ch, bool_decide (ch ≠ newline)) (l +:+ String newline rest) = true →
  False.
Proof.
  rewrite all_chars_app, andb_true_iff. simpl. by intros [_ H].
Qed.

(** A file has exactly one sequence of lines. *)
Lemma line_split_unique s ls1 ls2 :
  line_split s ls1 → line_split s ls2 → ls1 = ls2.
Proof.
  intros H1. revert ls2.
  induction H1 as [|l Hne Hl|l rest ls Hl Hrest IH]; intros ls2 H2.
  - by apply line_split_empty in H2.
  - inversion H2 as [E|l2 Hne2 Hl2 E|l2 rest2 ls2' Hl2 Hrest2 E]; subst;
      [done|done|].
    by destruct (line_holds_no_newline l2 rest2).
  - inversion H2 as [E|l2 Hne2 Hl2 E|l2 rest2 ls2' Hl2 Hrest2 E]; subst.
    + by destruct l.
    + by destruct (line_holds_no_newline l rest).
    + destruct (line_unique l2 rest2 l rest) as [-> ->]; try done.
      f_equal. by apply IH.
Qed.

(** *** ASCII text is analysed alike in every ASCII-compatible locale *)

Section Ascii_text.
Variable loc : locale.
Hypothesis loc_ascii : ascii_compatible loc.
Variable conf : Config.

Lemma scan_ascii st token line :
  ascii_only line = true →
  scan loc conf st token line = scan c_locale conf st token line.
Proof.
  revert st token. induction line as [|ch rest IH]; intros st token Hline; [done|].
  unfold ascii_only in Hline. cbn [all_chars] in Hline.
  apply andb_true_iff in Hline as [Hch Hrest].
  apply N.ltb_lt in Hch. destruct (loc_ascii ch Hch) as [Ha Ht].
  cbn [scan]. unfold is_word_char. rewrite Ha, Ht.
  destruct (isalnum c_locale ch); [by apply IH|].
  destruct (flush st token). by apply IH.
Qed.

Lemma process_line_ascii st line :
  ascii_only line = true →
  process_line loc conf st line = process_line c_locale conf st line.
Proof. intros H. unfold process_line. by rewrite scan_ascii. Qed.

Lemma process_lines_ascii st ls :
  Forall (λ l, ascii_only l = true) ls →
  foldl (process_line loc conf) st ls = foldl (process_line c_locale conf) st ls.
Proof.
  intros H. revert st. induction H as [|l ls Hl _ IH]; intros st; [done|].
  simpl. by rewrite process_line_ascii, IH.
Qed.
End Ascii_text.

Lemma until_newline_all_chars p s l r :
  until_newline s = (l, r) → all_chars p s = true →
  all_chars p l = true ∧ all_chars p r = true.
Proof.
  revert l r. induction s as [|ch s IH]; intros l r; simpl.
  - by intros [= <- <-].
  - intros E [Hch Hs]%andb_true_iff. case_decide.
    + by injection E as <- <-.
    + destruct (until_newline s) as [l' r'] eqn:U. injection E as <- <-.
      destruct (IH _ _ eq_refl Hs) as [Hl Hr]. simpl. by rewrite Hch, Hl.
Qed.

Lemma stream_lines_all_chars p in_ :
  all_chars p (unread in_) = true →
  Forall (λ l, all_chars p l = true) (stream_lines in_).
Proof.
  funelim (stream_lines in_); intros Hall; [|constructor].
  getline_facts.
  destruct (until_newline_all_chars p _ _ _ Hgu Hall) as [Hl Hr].
  constructor; [done|]. eauto.
Qed.

Lemma analyze_file_ascii loc fs conf f :
  ascii_compatible loc →
  fs !! input_path conf = Some f → ascii_only (file_data f) = true →
  analyze_file loc fs conf = analyze_file c_locale fs conf.
Proof.
  intros Hloc Hf Hascii. unfold analyze_file, ifstream_open. rewrite Hf.
  destruct (file_readable f); [|done]. cbn [failed].
  rewrite !read_lines_fold, (process_lines_ascii loc Hloc); [done|].
  by apply (stream_lines_all_chars _ {| unread := file_data f; failed := false |}).
Qed.

Lemma c_locale_ascii_compatible : ascii_compatible c_locale.
Proof. by intros ch _. Qed.

Lemma latin1_locale_ascii_compatible : ascii_compatible latin1_locale.
Proof.
  intros [[] [] [] [] [] [] [] []]; vm_compute; by intros.
Qed.

(** * Part IV: the claims *)

(** ** Top-K selector *)

(** C1.  For every frequency table and every requested count [k],
    whatever the iteration order of the hash map and whatever
    [std::partial_sort] does with the tail, [top_k] returns at most [k]
    entries of the table, sorted by count descending with ties broken by
    word ascending in byte-lexicographic order (an order in which two
    distinct words never tie); they are the best ranked ones, every entry
    left out ranks after every entry returned; if [k] is at least the
    number of distinct words, all entries are returned; an empty table
    gives the empty sequence. *)
Theorem top_k_sorted_best to_vector partial_sort :
  iteration_order to_vector → std_partial_sort partial_sort →
  ∀ (freq : gmap string N) (k : N),
    let out := top_k to_vector partial_sort freq k in
    N.of_nat (length out) ≤ k ∧
    StronglySorted ranks_before out ∧
    (∀ a b, a.1 ≠ b.1 → ranks_before a b ∨ ranks_before b a) ∧
    (∀ w c, (w, c) ∈ out → freq !! w = Some c) ∧
    (∀ w c e, freq !! w = Some c → (w, c) ∉ out → e ∈ out →
              ranks_before e (w, c)) ∧
    (N.of_nat (size freq) ≤ k → out ≡ₚ map_to_list freq) ∧
    (freq = ∅ → out = []).
Proof.
  intros Htv Hps freq k out. unfold out. clear out.
  rewrite (top_k_ranking _ _ Htv Hps).
  pose proof (ranking_sorted freq) as Hs.
  pose proof (ranking_NoDup freq) as Hnd.
  rewrite <-(take_drop (N.to_nat k) (ranking freq)) in Hs, Hnd.
  apply StronglySorted_app in Hs as (Hcross & Hs1 & _).
  apply NoDup_app in Hnd as (Hnd1 & _ & _).
  repeat split.
  - rewrite length_take. lia.
  - by apply StronglySorted_strict.
  - apply ranks_before_total.
  - intros w c Hin. apply elem_of_ranking. by eapply subseteq_take.
  - intros w c e Hw Hout He.
    apply elem_of_ranking in Hw.
    assert ((w, c) ∈ take (N.to_nat k) (ranking freq)
                    ++ drop (N.to_nat k) (ranking freq)) as Hw'
      by by rewrite take_drop.
    apply elem_of_app in Hw' as [Hw'|Hw']; [done|].
    apply not_after_ranks_before; [by apply Hcross|].
    intros ->. done.
  - intros Hk. rewrite take_ge by (rewrite ranking_length; lia).
    apply ranking_Permutation.
  - intros ->. unfold ranking. rewrite map_to_list_empty.
    change (merge_sort not_after []) with (@nil (string * N)).
    apply take_nil.
Qed.

Lemma top_k_sorted_best_witness :
  iteration_order map_to_list ∧ std_partial_sort sort_all ∧
  let out := top_k map_to_list sort_all demo_freq 1 in
  N.of_nat (length out) ≤ 1 ∧
  StronglySorted ranks_before out ∧
  (∀ a b, a.1 ≠ b.1 → ranks_before a b ∨ ranks_before b a) ∧
  (∀ w c, (w, c) ∈ out → demo_freq !! w = Some c) ∧
  (∀ w c e, demo_freq !! w = Some c → (w, c) ∉ out → e ∈ out →
            ranks_before e (w, c)) ∧
  (N.of_nat (size demo_freq) ≤ 1 → out ≡ₚ map_to_list demo_freq) ∧
  (demo_freq = ∅ → out = []).
Proof.
  split; [exact map_to_list_iteration_order|].
  split; [exact sort_all_std|].
  exact (top_k_sorted_best map_to_list sort_all map_to_list_iteration_order
           sort_all_std demo_freq 1).
Defined.

(** C6.  For every frequency table and all requested counts [k1 < k2],
    the first [k1] entries of the output for [k2] are the whole output
    for [k1], whatever the library does in either call. *)
Theorem top_k_prefix tv1 ps1 tv2 ps2 :
  iteration_order tv1 → std_partial_sort ps1 →
  iteration_order tv2 → std_partial_sort ps2 →
  ∀ (freq : gmap string N) (k1 k2 : N),
    k1 < k2 →
    take (N.to_nat k1) (top_k tv2 ps2 freq k2) = top_k tv1 ps1 freq k1.
Proof.
  intros Htv1 Hps1 Htv2 Hps2 freq k1 k2 Hk.
  rewrite (top_k_ranking _ _ Htv1 Hps1), (top_k_ranking _ _ Htv2 Hps2).
  rewrite take_take. f_equal. lia.
Qed.

Lemma top_k_prefix_witness :
  (1 < 2) ∧
  take (N.to_nat 1) (top_k map_to_list sort_all demo_freq 2)
  = top_k map_to_list sort_all demo_freq 1.
Proof.
  split; [done|].
  apply (top_k_prefix map_to_list sort_all map_to_list sort_all
           map_to_list_iteration_order sort_all_std
           map_to_list_iteration_order sort_all_std demo_freq 1 2).
  done.
Defined.

(** C10.  The output of [top_k] is a function of the entries of the
    table alone: it is the same for every iteration order of the hash map
    (and every conforming [std::partial_sort]), and its length is exactly
    the minimum of [k] and the number of distinct words. *)
Theorem top_k_deterministic tv1 ps1 tv2 ps2 :
  iteration_order tv1 → std_partial_sort ps1 →
  iteration_order tv2 → std_partial_sort ps2 →
  ∀ (freq : gmap string N) (k : N),
    top_k tv1 ps1 freq k = top_k tv2 ps2 freq k ∧
    N.of_nat (length (top_k tv1 ps1 freq k)) = N.min k (N.of_nat (size freq)).
Proof.
  intros Htv1 Hps1 Htv2 Hps2 freq k. split.
  - by rewrite (top_k_ranking _ _ Htv1 Hps1), (top_k_ranking _ _ Htv2 Hps2).
  - by apply top_k_length.
Qed.

Lemma reverse_order_iteration_order : iteration_order reverse_order.
Proof. intros m. unfold reverse_order. by rewrite reverse_Permutation. Qed.

Lemma top_k_deterministic_witness :
  top_k map_to_list sort_all demo_freq 1
  = top_k reverse_order sort_all demo_freq 1 ∧
  N.of_nat (length (top_k map_to_list sort_all demo_freq 1))
  = N.min 1 (N.of_nat (size demo_freq)).
Proof.
  exact (top_k_deterministic map_to_list sort_all reverse_order sort_all
           map_to_list_iteration_order sort_all_std
           reverse_order_iteration_order sort_all_std demo_freq 1).
Defined.

(** ** Tokenizer / counter *)

(** In the "C" locale a word character is exactly an ASCII letter or
    digit. *)
Lemma is_word_char_c_locale ch :
  is_word_char c_locale ch = true ↔ ascii_alnum ch.
Proof.
  unfold is_word_char, ascii_alnum. simpl.
  unfold ascii_digit, ascii_upper, ascii_lower, in_range.
  rewrite !orb_true_iff, !andb_true_iff, !N.leb_le. tauto.
Qed.

(** C2 (the code departs from the claim).  [is_word_char] is
    [std::isalnum], which follows the locale that [main] installs from
    the environment: in an ISO-8859-1 locale the non-ASCII byte [0xE9] is
    a word character, although it is no ASCII letter or digit, and a file
    that holds only that byte is counted as one word. *)
Theorem is_word_char_follows_locale :
  is_word_char latin1_locale (ascii_of_N 233) = true ∧
  ¬ ascii_alnum (ascii_of_N 233) ∧
  ∃ st, analyze_file latin1_locale accent_files demo_conf = Ok st ∧
        words st = 1.
Proof.
  split; [by vm_compute|]. split.
  - unfold ascii_alnum. rewrite N_ascii_embedding by (by vm_compute). lia.
  - eexists. split; [by vm_compute|done].
Qed.

(** C4.  For every input file and every configuration the word counter
    equals the sum of the counts of the frequency table: always as
    64-bit numbers, and as plain numbers for every file whose size fits
    64 bits. *)
Theorem words_equal_total_count loc fs conf st :
  analyze_file loc fs conf = Ok st →
  words st = wrap64 (total_count (freq st)) ∧
  ((∀ f, fs !! input_path conf = Some f → on_disk_size f < two64) →
   words st = total_count (freq st)).
Proof.
  intros H. apply analyze_file_Ok in H as (f & Hf & _ & _ & Hw & Hfr & _).
  rewrite Hw, Hfr. split.
  - by rewrite tally_total_mod, length_fmap.
  - intros Hsize. specialize (Hsize f Hf). unfold on_disk_size in Hsize.
    set (ls := stream_lines {| unread := file_data f; failed := false |}) in *.
    pose proof (lines_tokens_length loc ls) as H1.
    pose proof (stream_lines_length {| unread := file_data f; failed := false |}) as H2.
    fold ls in H2. simpl in H2.
    rewrite tally_total by (rewrite length_fmap; lia).
    rewrite length_fmap. apply wrap64_small. lia.
Qed.

Lemma words_equal_total_count_witness :
  ∃ st, analyze_file c_locale demo_files demo_conf = Ok st ∧
        words st = total_count (freq st).
Proof.
  eexists. split; [by vm_compute|].
  refine (proj2 (words_equal_total_count c_locale demo_files demo_conf _ _) _).
  - by vm_compute.
  - intros f Hf. unfold demo_files in Hf.
    apply lookup_singleton_Some in Hf as [_ <-]. by vm_compute.
Defined.

(** C5.  For every input file, the case-insensitive and the
    case-sensitive analysis fail together or succeed together, and then
    report the same number of words (and of lines and bytes), the
    case-insensitive table holding no more distinct tokens than the
    case-sensitive one. *)
Theorem case_mode_same_words loc fs (ci cs : Config) :
  input_path ci = input_path cs →
  case_sensitive ci = false → case_sensitive cs = true →
  match analyze_file loc fs ci, analyze_file loc fs cs with
  | Ok sti, Ok sts =>
      words sti = words sts ∧ (size (freq sti) ≤ size (freq sts))%nat ∧
      lines sti = lines sts ∧ bytes sti = bytes sts
  | Throw m1, Throw m2 => m1 = m2
  | _, _ => False
  end.
Proof.
  intros Hp Hci Hcs.
  destruct (analyze_file loc fs ci) as [sti|m1] eqn:Ei,
           (analyze_file loc fs cs) as [sts|m2] eqn:Es.
  - apply analyze_file_Ok in Ei as (f & Hf & _ & Hl & Hw & Hfr & Hb).
    apply analyze_file_Ok in Es as (f' & Hf' & _ & Hl' & Hw' & Hfr' & Hb').
    rewrite Hp, Hf' in Hf. injection Hf as ->. rewrite Hp in Hb.
    repeat split; [congruence| |congruence|congruence].
    rewrite <-!size_dom, Hfr, Hfr', !tally_dom.
    unfold fold_case. rewrite Hci, Hcs, list_fmap_id.
    apply size_list_to_set_fmap.
  - revert Ei Es. unfold analyze_file. rewrite Hp.
    by destruct (failed _).
  - revert Ei Es. unfold analyze_file. rewrite Hp.
    by destruct (failed _).
  - revert Ei Es. unfold analyze_file. rewrite Hp.
    destruct (failed _); congruence.
Qed.

Lemma case_mode_same_words_witness :
  match analyze_file c_locale demo_files demo_conf,
        analyze_file c_locale demo_files
          {| input_path := "demo.txt"; json_path := ""; topN := 3;
             case_sensitive := true |} with
  | Ok sti, Ok sts =>
      words sti = words sts ∧ (size (freq sti) ≤ size (freq sts))%nat ∧
      lines sti = lines sts ∧ bytes sti = bytes sts
  | Throw m1, Throw m2 => m1 = m2
  | _, _ => False
  end.
Proof.
  apply (case_mode_same_words c_locale demo_files demo_conf
           {| input_path := "demo.txt"; json_path := ""; topN := 3;
              case_sensitive := true |}); reflexivity.
Defined.

(** C7 (the code departs from the claim).  The byte count is not measured
    on the content that is analysed: it is what the metadata query
    reports, and the binary read loop, which the comment of line 124
    provides for virtual files and failing queries, runs only when the
    query sets its error code, on a second stream on the path.  For every
    file whose size agrees the count is the exact length of the file,
    terminators and trailing bytes included, and 0 for an empty file.
    For a file of [/proc], on which the query succeeds with 0, and for a
    pipe, which the scan has drained before the second stream is opened,
    the program reports 1 line, 3 words and 0 bytes where 16 bytes were
    read. *)
Theorem bytes_from_metadata :
  (∀ loc fs conf st f,
     analyze_file loc fs conf = Ok st → fs !! input_path conf = Some f →
     bytes st = match file_stat f with
                | Some n => wrap64 n
                | None =>
                    match file_again f with
                    | Some data => wrap64 (N.of_nat (String.length data))
                    | None => 0
                    end
                end ∧
     (on_disk_size f < two64 → size_agrees f →
      bytes st = on_disk_size f ∧ (file_data f = "" → bytes st = 0)))
  ∧
  (∃ st f,
     analyze_file c_locale virtual_files
       {| input_path := "/proc/version"; json_path := ""; topN := 20;
          case_sensitive := false |} = Ok st ∧
     virtual_files !! "/proc/version" = Some f ∧
     lines st = 1 ∧ words st = 3 ∧ on_disk_size f = 16 ∧ bytes st = 0)
  ∧
  (∃ st f,
     analyze_file c_locale pipe_files
       {| input_path := "/dev/stdin"; json_path := ""; topN := 20;
          case_sensitive := false |} = Ok st ∧
     pipe_files !! "/dev/stdin" = Some f ∧
     lines st = 1 ∧ words st = 3 ∧ on_disk_size f = 16 ∧ bytes st = 0).
Proof.
  split; [|split].
  - intros loc fs conf st f H Hf. split.
    + by apply (analyze_file_size loc conf fs).
    + intros Hsize Hag.
      pose proof (analyze_file_size_agrees loc conf fs st f H Hf Hsize Hag) as Hb.
      split; [done|]. intros Hd. rewrite Hb. unfold on_disk_size. by rewrite Hd.
  - eexists _, _. split; [by vm_compute|]. split; [by vm_compute|].
    repeat split; by vm_compute.
  - eexists _, _. split; [by vm_compute|]. split; [by vm_compute|].
    repeat split; by vm_compute.
Qed.

(** C3.  For every input file the lines are the maximal runs of bytes
    that a line feed or the end of the file terminates, and the tokens
    counted are, line by line, the maximal runs of word characters of
    that line: no token spans two lines.  The line counter, the word
    counter and every entry of the frequency table are the numbers of
    these lines and (case-folded) tokens, as 64-bit numbers.  For the file
    of the scenario, case-insensitive with [top = 2], in every locale that
    treats ASCII as the "C" locale does, the result is 2 lines, 5 words
    and the top words [("world", 3); ("hello", 2)]. *)
Theorem tokens_per_line :
  (∀ loc fs conf st f,
     analyze_file loc fs conf = Ok st →
     fs !! input_path conf = Some f →
     ∃ (ls : list string) (tss : list (list string)),
       line_split (file_data f) ls ∧
       Forall2 (tokenization loc) ls tss ∧
       lines st = wrap64 (N.of_nat (length ls)) ∧
       words st = wrap64 (N.of_nat (length (concat tss))) ∧
       ∀ w, freq st !! w =
            let n := occurrences w (fold_case loc conf <$> concat tss) in
            if decide (n = 0%nat) then None else Some (wrap64 (N.of_nat n)))
  ∧
  (∀ loc to_vector partial_sort fs conf f,
     ascii_compatible loc →
     iteration_order to_vector → std_partial_sort partial_sort →
     fs !! input_path conf = Some f → file_readable f = true →
     file_data f = "Hello hello WORLD" +:+ LF +:+ "world world" +:+ LF →
     case_sensitive conf = false → topN conf = 2 →
     ∃ st, analyze_file loc fs conf = Ok st ∧
           lines st = 2 ∧ words st = 5 ∧
           top_k to_vector partial_sort (freq st) (topN conf)
           = [("world", 3); ("hello", 2)]).
Proof.
  split.
  - intros loc fs conf st f H Hf.
    apply analyze_file_Ok in H as (f' & Hf' & _ & Hl & Hw & Hfr & _).
    rewrite Hf in Hf'. injection Hf' as <-.
    set (ls := stream_lines {| unread := file_data f; failed := false |}) in *.
    exists ls, (raw_tokens loc "" <$> ls).
    split; [by apply (stream_lines_split {| unread := file_data f; failed := false |})|].
    split; [apply lines_tokens_tokenization|].
    split; [done|]. split; [done|].
    intros w. rewrite Hfr. apply tally_lookup.
  - intros loc tv ps fs conf f Hloc Htv Hps Hf Hr Hd Hcs Hk.
    rewrite (analyze_file_ascii loc fs conf f Hloc Hf) by (by rewrite Hd).
    eexists. split; [by apply (analyze_file_readable c_locale conf fs f)|].
    cbn [lines words freq]. rewrite Hd, Hk. unfold fold_case. rewrite Hcs.
    split; [by vm_compute|]. split; [by vm_compute|].
    rewrite (top_k_ranking _ _ Htv Hps). by vm_compute.
Qed.

Lemma tokens_per_line_witness :
  ∃ st, analyze_file c_locale demo_files demo_conf = Ok st ∧
        lines st = 2 ∧ words st = 5 ∧
        top_k map_to_list sort_all (freq st) (topN demo_conf)
        = [("world", 3); ("hello", 2)].
Proof.
  refine (proj2 tokens_per_line c_locale map_to_list sort_all demo_files
            demo_conf
            (device_file demo_text)
            c_locale_ascii_compatible
            map_to_list_iteration_order sort_all_std _ _ _ _ _);
    reflexivity.
Defined.

(** The other scenarios of the specification, in every ASCII-compatible
    locale and for every conforming library. *)
Lemma scenario_ties loc to_vector partial_sort fs conf f :
  ascii_compatible loc →
  iteration_order to_vector → std_partial_sort partial_sort →
  fs !! input_path conf = Some f → file_readable f = true →
  file_data f = "b b a a" → case_sensitive conf = false → topN conf = 2 →
  ∃ st, analyze_file loc fs conf = Ok st ∧
        top_k to_vector partial_sort (freq st) (topN conf)
        = [("a", 2); ("b", 2)].
Proof.
  intros Hloc Htv Hps Hf Hr Hd Hcs Hk.
  rewrite (analyze_file_ascii loc fs conf f Hloc Hf) by (by rewrite Hd).
  eexists. split; [by apply (analyze_file_readable c_locale conf fs f)|].
  cbn [freq]. rewrite Hd, Hk. unfold fold_case. rewrite Hcs.
  rewrite (top_k_ranking _ _ Htv Hps). by vm_compute.
Qed.

Lemma scenario_case_sensitive loc to_vector partial_sort fs conf f :
  ascii_compatible loc →
  iteration_order to_vector → std_partial_sort partial_sort →
  fs !! input_path conf = Some f → file_readable f = true →
  file_data f = demo_text → case_sensitive conf = true → topN conf = 3 →
  ∃ st, analyze_file loc fs conf = Ok st ∧ words st = 5 ∧
        top_k to_vector partial_sort (freq st) (topN conf)
        = [("world", 2); ("Hello", 1); ("WORLD", 1)].
Proof.
  intros Hloc Htv Hps Hf Hr Hd Hcs Hk.
  rewrite (analyze_file_ascii loc fs conf f Hloc Hf) by (by rewrite Hd).
  eexists. split; [by apply (analyze_file_readable c_locale conf fs f)|].
  cbn [freq words]. rewrite Hd, Hk. unfold fold_case. rewrite Hcs.
  split; [by vm_compute|].
  rewrite (top_k_ranking _ _ Htv Hps). by vm_compute.
Qed.

Lemma scenario_empty_file loc to_vector partial_sort fs conf f :
  iteration_order to_vector → std_partial_sort partial_sort →
  fs !! input_path conf = Some f → file_readable f = true →
  file_data f = "" →
  ∃ st, analyze_file loc fs conf = Ok st ∧
        lines st = 0 ∧ words st = 0 ∧ (size_agrees f → bytes st = 0) ∧
        top_k to_vector partial_sort (freq st) (topN conf) = [].
Proof.
  intros Htv Hps Hf Hr Hd.
  eexists. split; [by apply (analyze_file_readable loc conf fs f)|].
  split; [|split; [|split]].
  - cbn [lines]. rewrite Hd. by vm_compute.
  - cbn [words]. rewrite Hd. by vm_compute.
  - intros Hag.
    rewrite (analyze_file_size_agrees loc conf fs _ f
               (analyze_file_readable loc conf fs f Hf Hr) Hf).
    + unfold on_disk_size. by rewrite Hd.
    + unfold on_disk_size. rewrite Hd. by vm_compute.
    + done.
  - cbn [freq]. rewrite Hd. rewrite (top_k_ranking _ _ Htv Hps). apply take_nil.
Qed.

(** ** Command line and exit codes *)

(** A command line that names only the input file always parses: the
    path is not looked at. *)
Lemma parse_args_path_only loc exe path :
  parse_args loc [exe; path] default_config
  = Parsed true {| input_path := path; json_path := ""; topN := 20;
                   case_sensitive := false |} "".
Proof. done. Qed.

(** C8.  For every command line that parses and every input path that
    cannot be opened for reading (a path that does not exist, or a file
    that is not readable), the run fails in the analysis: exit code 2, on
    standard error the message ["Error: Cannot open input file: "]
    followed by the path, and nothing on standard output.  In particular
    the bare command line [exe path] is never a usage error. *)
Theorem unreadable_input_exits_2 to_vector partial_sort env :
  (∀ argv conf err,
     parse_args (env_locale env) argv default_config = Parsed true conf err →
     (∀ f, env_files env !! input_path conf = Some f → file_readable f = false) →
     main to_vector partial_sort env argv
     = {| ended := Exit 2; stdout := "";
          stderr := "Error: Cannot open input file: " +:+ input_path conf +:+ LF;
          written := None |})
  ∧
  (∀ exe path,
     (∀ f, env_files env !! path = Some f → file_readable f = false) →
     main to_vector partial_sort env [exe; path]
     = {| ended := Exit 2; stdout := "";
          stderr := "Error: Cannot open input file: " +:+ path +:+ LF;
          written := None |}).
Proof.
  assert (∀ argv conf err,
     parse_args (env_locale env) argv default_config = Parsed true conf err →
     (∀ f, env_files env !! input_path conf = Some f → file_readable f = false) →
     main to_vector partial_sort env argv
     = {| ended := Exit 2; stdout := "";
          stderr := "Error: Cannot open input file: " +:+ input_path conf +:+ LF;
          written := None |}) as Hgen.
  { intros argv conf err Hparse Hopen. unfold main. rewrite Hparse.
    rewrite analyze_file_Throw by done. by rewrite app_assoc_s. }
  split; [done|].
  intros exe path Hopen.
  by apply (Hgen [exe; path] _ _ (parse_args_path_only _ exe path)).
Qed.

Lemma unreadable_input_exits_2_witness :
  main map_to_list sort_all empty_env ["file_stats"; "missing.txt"]
  = {| ended := Exit 2; stdout := "";
       stderr := "Error: Cannot open input file: " +:+ "missing.txt" +:+ LF;
       written := None |}.
Proof.
  apply (proj2 (unreadable_input_exits_2 map_to_list sort_all empty_env)
           "file_stats" "missing.txt").
  intros f Hf. simpl in Hf. by rewrite lookup_empty in Hf.
Defined.

(** [--top] as the last argument is a usage error: help text and exit
    code 1, before any analysis. *)
Lemma top_without_value_is_usage_error to_vector partial_sort env exe path :
  main to_vector partial_sort env [exe; path; "--top"]
  = {| ended := Exit 1; stdout := print_help exe;
       stderr := "Unknown argument: --top" +:+ LF; written := None |}.
Proof. done. Qed.

(** Whenever [std::stoul] throws on the value of [--top], nothing catches
    the exception. *)
Lemma top_value_exception_terminates to_vector partial_sort env exe path
    value rest :
  (∀ n, stoul (env_locale env) value ≠ Stoul n) →
  main to_vector partial_sort env (exe :: path :: "--top" :: value :: rest)
  = {| ended := Terminate; stdout := ""; stderr := ""; written := None |}.
Proof.
  intros Hthrow. unfold main, parse_args. cbn [parse_options].
  rewrite decide_False by (intros [?|?]; done).
  rewrite decide_True by done.
  destruct (stoul (env_locale env) value) as [n| |] eqn:E; [|done|done].
  by destruct (Hthrow n).
Qed.

(** C9 (the code departs from the claim).  A value of [--top] that is not
    a number makes [std::stoul] throw inside [parse_args], outside the
    [try] block of [main]: the process is terminated, without help text
    and without exit code 1.  A negative value is not refused either: it
    wraps around to a huge count and the analysis runs. *)
Theorem top_value_not_checked to_vector partial_sort fs writable stored now :
  let env := {| env_locale := c_locale; env_files := fs;
                env_writable := writable;
                env_stored := stored; env_now := now |} in
  main to_vector partial_sort env ["file_stats"; "input.txt"; "--top"; "abc"]
  = {| ended := Terminate; stdout := ""; stderr := ""; written := None |}
  ∧
  parse_args c_locale ["file_stats"; "input.txt"; "--top"; "-5"] default_config
  = Parsed true {| input_path := "input.txt"; json_path := "";
                   topN := 18446744073709551611; case_sensitive := false |} "".
Proof. split; by vm_compute. Qed.

(** * Part V: further properties of the code *)

(** ** [json_escape] *)

Lemma json_escape_cons c rest :
  json_escape (String c rest) = escape_byte c +:+ json_escape rest.
Proof. done. Qed.

Lemma json_string_body_escape_byte c t :
  json_string_body (escape_byte c +:+ t) = json_string_body t.
Proof. destruct c as [[] [] [] [] [] [] [] []]; reflexivity. Qed.

Lemma json_unescape_escape_byte c t :
  json_unescape (escape_byte c +:+ t) = String c <$> json_unescape t.
Proof. destruct c as [[] [] [] [] [] [] [] []]; reflexivity. Qed.

Lemma json_unescape_escape s : json_unescape (json_escape s) = Some s.
Proof.
  induction s as [|c s IH]; [done|].
  by rewrite json_escape_cons, json_unescape_escape_byte, IH.
Qed.

Lemma escape_byte_length c :
  (1 ≤ String.length (escape_byte c) ≤ 6)%nat.
Proof. destruct c as [[] [] [] [] [] [] [] []]; vm_compute; lia. Qed.

Lemma escape_byte_plain c :
  32 ≤ N_of_ascii c → N_of_ascii c ≠ 34 → N_of_ascii c ≠ 92 →
  escape_byte c = String c "".
Proof.
  intros H1 H2 H3. unfold escape_byte.
  repeat (match goal with |- context [?a =? ?b] =>
            destruct (N.eqb_spec a b); [lia|] end).
  destruct (N.ltb_spec (N_of_ascii c) 32); [lia|done].
Qed.

Lemma json_escape_plain s :
  all_chars (λ c, (32 <=? N_of_ascii c) && negb (N_of_ascii c =? 34)
                  && negb (N_of_ascii c =? 92)) s = true →
  json_escape s = s.
Proof.
  induction s as [|c s IH]; [done|]. simpl all_chars.
  rewrite !andb_true_iff, !negb_true_iff, N.leb_le, !N.eqb_neq.
  intros [[[H1 H2] H3] Hrest].
  by rewrite json_escape_cons, escape_byte_plain, IH.
Qed.

(** X1.  [json_escape] always writes the content of a valid JSON string:
    no raw quotation mark, no raw control character, and every reverse
    solidus starts one of the escapes of RFC 8259. *)
Theorem json_escape_valid s : json_string_body (json_escape s) = true.
Proof.
  induction s as [|c s IH]; [done|].
  by rewrite json_escape_cons, json_string_body_escape_byte.
Qed.

(** X2.  [json_escape] loses nothing: reading the escapes gives back the
    escaped bytes, so two different strings are never escaped alike. *)
Theorem json_escape_round_trip s1 s2 :
  json_unescape (json_escape s1) = Some s1 ∧
  (json_escape s1 = json_escape s2 → s1 = s2).
Proof.
  split; [apply json_unescape_escape|].
  intros E. apply (f_equal json_unescape) in E.
  rewrite !json_unescape_escape in E. by injection E.
Qed.

(** X3.  [json_escape] works byte by byte: the escape of a concatenation
    is the concatenation of the escapes, every byte gives between one and
    six bytes, and bytes from [0x20] on other than the quotation mark and
    the reverse solidus (all bytes above [0x7F] among them) are copied
    unchanged. *)
Theorem json_escape_bytewise s1 s2 :
  json_escape (s1 +:+ s2) = json_escape s1 +:+ json_escape s2 ∧
  (String.length s1 ≤ String.length (json_escape s1) ≤ 6 * String.length s1)%nat ∧
  (all_chars (λ c, (32 <=? N_of_ascii c) && negb (N_of_ascii c =? 34)
                   && negb (N_of_ascii c =? 92)) s1 = true →
   json_escape s1 = s1).
Proof.
  split; [|split].
  - induction s1 as [|c s1 IH]; [done|].
    change (String c s1 +:+ s2) with (String c (s1 +:+ s2)).
    by rewrite !json_escape_cons, IH, app_assoc_s.
  - induction s1 as [|c s1 IH]; [simpl; lia|].
    rewrite json_escape_cons, app_length_s. pose proof (escape_byte_length c).
    simpl. lia.
  - apply json_escape_plain.
Qed.

(** ** [parse_args] and [main] *)

Lemma parse_options_case loc conf a rest :
  option_case loc conf a rest (parse_options loc conf (a :: rest)).
Proof.
  cbn [parse_options].
  destruct (decide (a = "--help" ∨ a = "-h")) as [Hh|Hh]; [by constructor|].
  assert (a ≠ "--help" ∧ a ≠ "-h") as [??] by tauto.
  destruct (decide (a = "--top")) as [->|Ht].
  { destruct rest as [|v rest'].
    - by apply option_unknown.
    - destruct (stoul loc v) as [n| |] eqn:E.
      + by apply (option_top loc conf _ _ v rest' n).
      + rewrite <-E. apply (option_top_throws loc conf _ _ v rest'); congruence.
      + rewrite <-E. apply (option_top_throws loc conf _ _ v rest'); congruence. }
  destruct (decide (a = "--json")) as [->|Hj].
  { destruct rest as [|v rest'].
    - by apply option_unknown.
    - by apply (option_json loc conf _ _ v rest'). }
  destruct (decide (a = "--case-sensitive")) as [->|Hc].
  - destruct rest; by apply option_case_sensitive.
  - destruct rest; (apply option_unknown; [done..|by intros [?|?]]).
Qed.

(** An induction on the options that follows [parse_options], which
    consumes one or two arguments at a time. *)
Lemma options_ind (P : list string → Prop) :
  P [] →
  (∀ a rest, P rest → (∀ v rest', rest = v :: rest' → P rest') → P (a :: rest)) →
  ∀ opts, P opts.
Proof.
  intros Hnil Hcons opts.
  assert (P opts ∧ ∀ v rest', opts = v :: rest' → P rest') as [H _]; [|done].
  induction opts as [|a opts [IH1 IH2]]; [by split|].
  split; [by apply Hcons|]. by intros v rest' [= -> ->].
Qed.

(** The options are processed from left to right. *)
Lemma parse_options_app loc conf conf' err pre rest :
  parse_options loc conf pre = Parsed true conf' err →
  parse_options loc conf (pre ++ rest) = parse_options loc conf' rest.
Proof.
  revert conf. induction pre as [|a pre IH1 IH2] using options_ind; intros conf.
  - by intros [= <- <-].
  - rewrite <-app_comm_cons.
    destruct (parse_options_case loc conf a pre)
      as [Hh|v pre' n -> -> Hv|v pre' -> -> Hv|v pre' -> ->| ->|H1 H2 H3 H4];
      try done.
    + cbn [parse_options app]. rewrite decide_False by (by intros [?|?]).
      rewrite decide_True by done. rewrite Hv. by apply (IH2 v pre').
    + cbn [parse_options app]. rewrite decide_False by (by intros [?|?]).
      rewrite decide_False by done. rewrite decide_True by done.
      by apply (IH2 v pre').
    + intros H. rewrite <-(IH1 _ H). cbn [parse_options].
      rewrite decide_False by (by intros [?|?]).
      rewrite decide_False by done. rewrite decide_False by done.
      rewrite decide_True by done. by destruct (pre ++ rest).
Qed.

Lemma not_elem_of_tail {A} (x a : A) l : x ∉ a :: l → x ∉ l.
Proof. intros Hn Hin. apply Hn. by right. Qed.

Lemma not_elem_of_tail2 {A} (x a v : A) l : x ∉ a :: v :: l → x ∉ l.
Proof. intros Hn Hin. apply Hn. by do 2 right. Qed.

(** What a successful parse leaves in the configuration. *)
Lemma parse_options_success loc conf conf' err opts :
  parse_options loc conf opts = Parsed true conf' err →
  input_path conf' = input_path conf ∧ err = "" ∧
  ("--top" ∉ opts → topN conf' = topN conf) ∧
  ("--json" ∉ opts → json_path conf' = json_path conf) ∧
  ("--case-sensitive" ∉ opts → case_sensitive conf' = case_sensitive conf) ∧
  (case_sensitive conf = true → case_sensitive conf' = true).
Proof.
  revert conf. induction opts as [|a opts IH1 IH2] using options_ind; intros conf.
  - by intros [= <- <-].
  - destruct (parse_options_case loc conf a opts)
      as [Hh|v opts' n -> -> Hv|v opts' -> -> Hv|v opts' -> ->| ->|H1 H2 H3 H4];
      try done.
    + intros H. destruct (IH2 v opts' eq_refl _ H) as (? & ? & ? & ? & ? & ?).
      repeat split; try done.
      * intros Hn. destruct Hn. by left.
      * eauto using not_elem_of_tail2.
      * eauto using not_elem_of_tail2.
    + intros H. destruct (IH2 v opts' eq_refl _ H) as (? & ? & ? & ? & ? & ?).
      repeat split; try done.
      * eauto using not_elem_of_tail2.
      * intros Hn. destruct Hn. by left.
      * eauto using not_elem_of_tail2.
    + intros H. destruct (IH1 _ H) as (? & ? & ? & ? & ? & Hcs).
      repeat split; try done.
      * eauto using not_elem_of_tail.
      * eauto using not_elem_of_tail.
      * intros Hn. destruct Hn. by left.
      * intros _. by apply Hcs.
Qed.

(** Why a parse fails, exits on help, or is left by an exception. *)
Lemma parse_options_failure loc conf opts :
  match parse_options loc conf opts with
  | Parsed true _ _ => True
  | Parsed false _ err =>
      ∃ a, a ∈ opts ∧ err = "Unknown argument: " +:+ a +:+ LF ∧
           a ≠ "--help" ∧ a ≠ "-h" ∧ a ≠ "--case-sensitive"
  | Help_exit => "--help" ∈ opts ∨ "-h" ∈ opts
  | Uncaught e =>
      ∃ value, "--top" ∈ opts ∧ value ∈ opts ∧ e = stoul loc value ∧
               ∀ n, e ≠ Stoul n
  end.
Proof.
  revert conf. induction opts as [|a opts IH1 IH2] using options_ind; intros conf.
  - done.
  - destruct (parse_options_case loc conf a opts)
      as [Hh|v opts' n -> -> Hv|v opts' -> -> Hv|v opts' -> ->| ->|H1 H2 H3 H4].
    + destruct Hh as [->| ->]; [left|right]; by left.
    + specialize (IH2 v opts' eq_refl (set_topN conf n)).
      destruct (parse_options loc (set_topN conf n) opts') as [[] ? ?| |e].
      * done.
      * destruct IH2 as (a & Ha & ?). exists a. split; [|done]. by do 2 right.
      * destruct IH2 as [?|?]; [left|right]; by do 2 right.
      * destruct IH2 as (w & ? & ? & ?). exists w.
        split; [by left|]. split; [by do 2 right|done].
    + exists v. split; [by left|]. split; [by right; left|]. split; [done|].
      intros n E. by destruct (Hv n).
    + specialize (IH2 v opts' eq_refl (set_json_path conf v)).
      destruct (parse_options loc (set_json_path conf v) opts') as [[] ? ?| |e].
      * done.
      * destruct IH2 as (a & Ha & ?). exists a. split; [|done]. by do 2 right.
      * destruct IH2 as [?|?]; [left|right]; by do 2 right.
      * destruct IH2 as (w & ? & ? & ?). exists w.
        split; [by do 2 right|]. split; [by do 2 right|done].
    + specialize (IH1 (set_case_sensitive conf)).
      destruct (parse_options loc (set_case_sensitive conf) opts) as [[] ? ?| |e].
      * done.
      * destruct IH1 as (a & Ha & ?). exists a. split; [|done]. by right.
      * destruct IH1 as [?|?]; [left|right]; by right.
      * destruct IH1 as (w & ? & ? & ?). exists w.
        split; [by right|]. split; [by right|done].
    + exists a. split; [by left|done].
Qed.


Lemma parse_options_json loc conf value rest :
  parse_options loc conf ("--json" :: value :: rest)
  = parse_options loc (set_json_path conf value) rest.
Proof.
  cbn [parse_options]. rewrite decide_False by (by intros [?|?]).
  rewrite decide_False by done. by rewrite decide_True by done.
Qed.


(** The analysis does not look at the JSON path. *)
Lemma analyze_file_json_path loc fs conf p :
  analyze_file loc fs (set_json_path conf p) = analyze_file loc fs conf.
Proof.
  destruct (fs !! input_path conf) as [f|] eqn:Hf.
  - destruct (file_readable f) eqn:Hr.
    + rewrite (analyze_file_readable loc conf fs f Hf Hr).
      by rewrite (analyze_file_readable loc (set_json_path conf p) fs f Hf Hr).
    + rewrite (analyze_file_Throw loc conf fs)
        by (intros f' Hf'; rewrite Hf in Hf'; by injection Hf' as <-).
      by rewrite (analyze_file_Throw loc (set_json_path conf p) fs)
        by (intros f' Hf'; cbn in Hf'; rewrite Hf in Hf'; by injection Hf' as <-).
  - rewrite (analyze_file_Throw loc conf fs) by (intros f' Hf'; congruence).
    by rewrite (analyze_file_Throw loc (set_json_path conf p) fs)
      by (intros f' Hf'; cbn in Hf'; congruence).
Qed.


Section Main_cases.
Variable to_vector : gmap string N → list (string * N).
Variable partial_sort : nat → list (string * N) → list (string * N).
Variable env : Env.

Lemma main_usage argv conf err :
  parse_args (env_locale env) argv default_config = Parsed false conf err →
  main to_vector partial_sort env argv
  = {| ended := Exit 1; stdout := print_help (hd "" argv); stderr := err;
       written := None |}.
Proof. intros H. unfold main. by rewrite H. Qed.

Lemma main_help argv :
  parse_args (env_locale env) argv default_config = Help_exit →
  main to_vector partial_sort env argv
  = {| ended := Exit 0; stdout := print_help (hd "" argv); stderr := "";
       written := None |}.
Proof. intros H. unfold main. by rewrite H. Qed.

Lemma main_uncaught argv e :
  parse_args (env_locale env) argv default_config = Uncaught e →
  main to_vector partial_sort env argv
  = {| ended := Terminate; stdout := ""; stderr := ""; written := None |}.
Proof. intros H. unfold main. by rewrite H. Qed.

Lemma main_analysis_throws argv conf err what :
  parse_args (env_locale env) argv default_config = Parsed true conf err →
  analyze_file (env_locale env) (env_files env) conf = Throw what →
  main to_vector partial_sort env argv
  = {| ended := Exit 2; stdout := ""; stderr := "Error: " +:+ what +:+ LF;
       written := None |}.
Proof. intros H1 H2. unfold main. by rewrite H1, H2. Qed.

Lemma main_report_only argv conf err st :
  parse_args (env_locale env) argv default_config = Parsed true conf err →
  analyze_file (env_locale env) (env_files env) conf = Ok st →
  json_path conf = "" →
  main to_vector partial_sort env argv
  = {| ended := Exit 0;
       stdout := report conf st
                   (top_k to_vector partial_sort (freq st) (topN conf));
       stderr := ""; written := None |}.
Proof. intros H1 H2 H3. unfold main. by rewrite H1, H2, H3. Qed.

Lemma main_json_written argv conf err st :
  parse_args (env_locale env) argv default_config = Parsed true conf err →
  analyze_file (env_locale env) (env_files env) conf = Ok st →
  json_path conf ≠ "" → env_writable env (json_path conf) = true →
  let top := top_k to_vector partial_sort (freq st) (topN conf) in
  main to_vector partial_sort env argv
  = {| ended := Exit 0;
       stdout := report conf st top +:+ LF +:+ "JSON written to: "
                 +:+ json_path conf +:+ LF;
       stderr := "";
       written := Some (json_path conf,
                        env_stored env (json_path conf)
                          (json_document (env_now env) conf st top)) |}.
Proof.
  intros H1 H2 H3 H4. unfold main, write_json. rewrite H1, H2, H4.
  by destruct (json_path conf).
Qed.

Lemma main_json_fails argv conf err st :
  parse_args (env_locale env) argv default_config = Parsed true conf err →
  analyze_file (env_locale env) (env_files env) conf = Ok st →
  json_path conf ≠ "" → env_writable env (json_path conf) = false →
  main to_vector partial_sort env argv
  = {| ended := Exit 2;
       stdout := report conf st
                   (top_k to_vector partial_sort (freq st) (topN conf));
       stderr := "Error: " +:+ ("Cannot write JSON file: " +:+ json_path conf)
                 +:+ LF;
       written := None |}.
Proof.
  intros H1 H2 H3 H4. unfold main, write_json. rewrite H1, H2, H4.
  by destruct (json_path conf).
Qed.
End Main_cases.

Lemma parse_args_short loc argv conf :
  (length argv < 2)%nat → parse_args loc argv conf = Parsed false conf "".
Proof. destruct argv as [|? [|? ?]]; simpl; [done|done|lia]. Qed.

Lemma parse_args_options loc exe path opts conf :
  parse_args loc (exe :: path :: opts) conf
  = parse_options loc
      {| input_path := path; json_path := json_path conf;
         topN := topN conf; case_sensitive := case_sensitive conf |} opts.
Proof. done. Qed.

(** X4.  When [parse_args] succeeds it has written nothing to standard
    error, the input path is the first argument as given, and every
    setting whose flag does not occur on the command line keeps its
    default: 20 top words, no JSON export, case-insensitive counting. *)
Theorem parse_args_defaults loc exe path opts conf err :
  parse_args loc (exe :: path :: opts) default_config = Parsed true conf err →
  input_path conf = path ∧ err = "" ∧
  ("--top" ∉ opts → topN conf = 20) ∧
  ("--json" ∉ opts → json_path conf = "") ∧
  ("--case-sensitive" ∉ opts → case_sensitive conf = false).
Proof.
  rewrite parse_args_options. intros H.
  apply parse_options_success in H as (? & ? & ? & ? & ? & _). done.
Qed.

Lemma parse_args_defaults_witness :
  parse_args c_locale ["file_stats"; "demo.txt"; "--case-sensitive"]
    default_config
  = Parsed true {| input_path := "demo.txt"; json_path := ""; topN := 20;
                   case_sensitive := true |} "" ∧
  topN {| input_path := "demo.txt"; json_path := ""; topN := 20;
          case_sensitive := true |} = 20.
Proof.
  split; [reflexivity|].
  refine (proj1 (proj2 (proj2 (parse_args_defaults c_locale "file_stats"
            "demo.txt" ["--case-sensitive"] _ "" eq_refl))) _).
  intros Hin. apply list_elem_of_singleton in Hin. discriminate Hin.
Defined.

(** X5.  The options are processed from left to right: after a prefix of
    options that parses, the rest is parsed from the configuration the
    prefix left, so [--help] after valid options still prints the help
    and exits with code 0 before any analysis. *)
Theorem options_left_to_right to_vector partial_sort env exe path pre rest
    conf err :
  parse_args (env_locale env) (exe :: path :: pre) default_config
  = Parsed true conf err →
  parse_args (env_locale env) (exe :: path :: pre ++ rest) default_config
  = parse_options (env_locale env) conf rest ∧
  main to_vector partial_sort env (exe :: path :: pre ++ "--help" :: rest)
  = {| ended := Exit 0; stdout := print_help exe; stderr := "";
       written := None |}.
Proof.
  rewrite parse_args_options. intros H.
  assert (∀ rest',
    parse_args (env_locale env) (exe :: path :: pre ++ rest') default_config
    = parse_options (env_locale env) conf rest') as Happ.
  { intros rest'. rewrite parse_args_options. by eapply parse_options_app. }
  split; [done|].
  apply main_help. rewrite Happ. cbn [parse_options].
  by rewrite decide_True by (by left).
Qed.

Lemma options_left_to_right_witness :
  main map_to_list sort_all empty_env
    ("file_stats" :: "missing.txt" :: ["--top"; "3"] ++ "--help" :: ["--bogus"])
  = {| ended := Exit 0; stdout := print_help "file_stats"; stderr := "";
       written := None |}.
Proof.
  refine (proj2 (options_left_to_right map_to_list sort_all empty_env
            "file_stats" "missing.txt" ["--top"; "3"] ["--bogus"] _ _ _)).
  reflexivity.
Defined.

(** X6.  Exit code 1 is a usage error: standard output holds the help
    text, no file is written, and either fewer than two arguments were
    given and standard error is empty, or standard error names one
    argument of the command line, which is none of [--help], [-h] and
    [--case-sensitive]. *)
Theorem usage_error_report to_vector partial_sort env argv :
  ended (main to_vector partial_sort env argv) = Exit 1 →
  stdout (main to_vector partial_sort env argv) = print_help (hd "" argv) ∧
  written (main to_vector partial_sort env argv) = None ∧
  (((length argv < 2)%nat ∧ stderr (main to_vector partial_sort env argv) = "")
   ∨ ∃ a, a ∈ drop 2 argv ∧
          stderr (main to_vector partial_sort env argv)
          = "Unknown argument: " +:+ a +:+ LF ∧
          a ≠ "--help" ∧ a ≠ "-h" ∧ a ≠ "--case-sensitive").
Proof.
  destruct (parse_args (env_locale env) argv default_config)
    as [[] conf err| |e] eqn:Hp.
  - destruct (analyze_file (env_locale env) (env_files env) conf) as [st|what] eqn:Ha.
    + destruct (decide (json_path conf = "")) as [Hj|Hj].
      * by rewrite (main_report_only _ _ _ _ _ _ _ Hp Ha Hj).
      * destruct (env_writable env (json_path conf)) eqn:Hw.
        -- by rewrite (main_json_written _ _ _ _ _ _ _ Hp Ha Hj Hw).
        -- by rewrite (main_json_fails _ _ _ _ _ _ _ Hp Ha Hj Hw).
    + by rewrite (main_analysis_throws _ _ _ _ _ _ _ Hp Ha).
  - rewrite (main_usage _ _ _ _ _ _ Hp). intros _. split; [done|]. split; [done|].
    destruct argv as [|exe [|path opts]]; [left; simpl in *; split; [lia|]..|].
    + by injection Hp as <- <-.
    + by injection Hp as <- <-.
    + right. rewrite parse_args_options in Hp.
      pose proof (parse_options_failure (env_locale env)
        {| input_path := path; json_path := json_path default_config;
           topN := topN default_config;
           case_sensitive := case_sensitive default_config |} opts) as Hf.
      rewrite Hp in Hf. done.
  - by rewrite (main_help _ _ _ _ Hp).
  - by rewrite (main_uncaught _ _ _ _ _ Hp).
Qed.

Lemma usage_error_report_witness :
  stdout (main map_to_list sort_all empty_env ["file_stats"])
  = print_help "file_stats".
Proof.
  refine (proj1 (usage_error_report map_to_list sort_all empty_env
                   ["file_stats"] _)).
  reflexivity.
Defined.


(** X8.  Asking for the JSON export changes nothing of the report.  When
    [--json] with a non-empty path is added at the end of a command line
    that succeeds without export, the run prints the same report first;
    if the path does not open it then exits with code 2 and the error
    ["Cannot write JSON file: "] with the path, and no file; if the path
    opens it exits with code 0 after the line ["JSON written to: "] with
    the path, whatever the device stored of the document: nothing tests
    the stream once it is open. *)
Theorem json_export_after_report to_vector partial_sort env argv conf err st p :
  parse_args (env_locale env) argv default_config = Parsed true conf err →
  analyze_file (env_locale env) (env_files env) conf = Ok st →
  json_path conf = "" → p ≠ "" →
  let base := main to_vector partial_sort env argv in
  let run := main to_vector partial_sort env (argv ++ ["--json"; p]) in
  ended base = Exit 0 ∧ written base = None ∧
  (env_writable env p = false →
   ended run = Exit 2 ∧ stdout run = stdout base ∧
   stderr run = "Error: Cannot write JSON file: " +:+ p +:+ LF ∧
   written run = None) ∧
  (env_writable env p = true →
   ended run = Exit 0 ∧
   stdout run = stdout base +:+ LF +:+ "JSON written to: " +:+ p +:+ LF ∧
   stderr run = "" ∧
   written run
   = Some (p, env_stored env p
                (json_document (env_now env) (set_json_path conf p) st
                   (top_k to_vector partial_sort (freq st) (topN conf))))).
Proof.
  intros Hp Ha Hj Hne base run.
  assert (parse_args (env_locale env) (argv ++ ["--json"; p]) default_config
          = Parsed true (set_json_path conf p) "") as Hp'.
  { destruct argv as [|exe [|path opts]]; [done..|].
    rewrite <-!app_comm_cons, parse_args_options.
    rewrite parse_args_options in Hp.
    rewrite (parse_options_app _ _ _ _ _ _ Hp). by rewrite parse_options_json. }
  assert (analyze_file (env_locale env) (env_files env) (set_json_path conf p)
          = Ok st) as Ha'.
  { by rewrite analyze_file_json_path. }
  assert (json_path (set_json_path conf p) ≠ "") as Hj' by done.
  unfold base, run. rewrite (main_report_only _ _ _ _ _ _ _ Hp Ha Hj).
  split; [done|]. split; [done|]. split.
  - intros Hw.
    by rewrite (main_json_fails _ _ _ _ _ _ _ Hp' Ha' Hj' Hw), app_assoc_s.
  - intros Hw. by rewrite (main_json_written _ _ _ _ _ _ _ Hp' Ha' Hj' Hw).
Qed.

Lemma json_export_after_report_witness :
  ended (main map_to_list sort_all full_env
           ["file_stats"; "demo.txt"; "--json"; "/dev/full"]) = Exit 0 ∧
  written (main map_to_list sort_all full_env
             ["file_stats"; "demo.txt"; "--json"; "/dev/full"])
  = Some ("/dev/full", "").
Proof.
  destruct (json_export_after_report map_to_list sort_all full_env
              ["file_stats"; "demo.txt"] _ _ _ "/dev/full"
              eq_refl eq_refl eq_refl ltac:(discriminate))
    as (_ & _ & _ & H).
  destruct (H eq_refl) as (H1 & _ & _ & H2). split; [exact H1|exact H2].
Defined.

(** ** More on [analyze_file] *)

Lemma unterminated_cons ch s :
  s ≠ "" → unterminated (String ch s) = unterminated s.
Proof. by destruct s. Qed.

Lemma unterminated_app_lf l rest :
  unterminated (l +:+ String newline rest) = unterminated rest.
Proof.
  induction l as [|ch l IH]; simpl.
  - by destruct rest.
  - rewrite <-IH. by destruct l.
Qed.

Lemma count_lf_app s1 s2 : count_lf (s1 +:+ s2) = (count_lf s1 + count_lf s2)%nat.
Proof. induction s1 as [|ch s1 IH]; simpl; [done|]. rewrite IH. lia. Qed.

Lemma no_lf_count l :
  all_chars (λ ch, bool_decide (ch ≠ newline)) l = true → count_lf l = 0%nat.
Proof.
  induction l as [|ch l IH]; simpl; [done|].
  intros [Hch Hl]%andb_true_iff. apply bool_decide_eq_true in Hch.
  rewrite decide_False by done. by rewrite IH.
Qed.

Lemma no_lf_unterminated l :
  l ≠ "" → all_chars (λ ch, bool_decide (ch ≠ newline)) l = true →
  unterminated l = true.
Proof.
  induction l as [|ch l IH]; [done|]. simpl. intros _ [Hch Hl]%andb_true_iff.
  destruct l as [|c l]; [done|]. by apply IH.
Qed.

(** The number of lines: one for each line feed and one for what follows
    the last line feed, if anything does. *)
Lemma line_split_length s ls :
  line_split s ls →
  length ls = (count_lf s + if unterminated s then 1 else 0)%nat.
Proof.
  induction 1 as [|l Hne Hl|l rest ls Hl Hrest IH].
  - done.
  - by rewrite no_lf_count, no_lf_unterminated.
  - rewrite count_lf_app, no_lf_count, unterminated_app_lf by done. simpl.
    rewrite IH. lia.
Qed.

Lemma count_lf_length s :
  (count_lf s + (if unterminated s then 1 else 0) ≤ String.length s)%nat.
Proof.
  induction s as [|ch s IH]; [done|].
  destruct s as [|c s].
  - simpl. case_decide; case_bool_decide; simpl; (done || lia).
  - rewrite unterminated_cons by done.
    change (count_lf (String ch (String c s)))
      with ((if decide (ch = newline) then 1 else 0) + count_lf (String c s))%nat.
    change (String.length (String ch (String c s)))
      with (S (String.length (String c s))).
    case_decide; lia.
Qed.

Lemma size_list_to_set_length (ts : list string) :
  (size (list_to_set (C:=gset string) ts) ≤ length ts)%nat.
Proof.
  induction ts as [|t ts IH]; [done|].
  rewrite list_to_set_cons, size_union_alt, size_singleton.
  assert (size (list_to_set (C:=gset string) ts ∖ {[t]})
          ≤ size (list_to_set (C:=gset string) ts))%nat
    by (apply subseteq_size, subseteq_difference_l; done).
  simpl. lia.
Qed.


Lemma occurrences_elem_of w ts : occurrences w ts ≠ 0%nat → w ∈ ts.
Proof.
  unfold occurrences. intros H.
  destruct (filter (eq w) ts) as [|x l] eqn:E; [done|].
  assert (x ∈ filter (eq w) ts) as Hx by (rewrite E; by left).
  apply list_elem_of_filter in Hx as [<- ?]. done.
Qed.

Section Keys.
Variable loc : locale.

Lemma raw_tokens_words line pending :
  all_chars (is_word_char loc) pending = true →
  Forall (λ t, t ≠ "" ∧ all_chars (is_word_char loc) t = true)
         (raw_tokens loc pending line).
Proof.
  revert pending. induction line as [|ch rest IH]; intros pending Hp; simpl.
  - destruct pending; by repeat constructor.
  - destruct (is_word_char loc ch) eqn:Hch.
    + apply IH. by apply all_chars_push_back.
    + apply Forall_app. split; [|by apply IH].
      destruct pending; by repeat constructor.
Qed.

Lemma lines_tokens_words ls :
  Forall (λ t, t ≠ "" ∧ all_chars (is_word_char loc) t = true)
         (lines_tokens loc ls).
Proof.
  unfold lines_tokens. induction ls as [|l ls IH]; [constructor|].
  rewrite fmap_cons, concat_cons. apply Forall_app. split; [|done].
  by apply raw_tokens_words.
Qed.
End Keys.

(** The counters of a file whose size fits 64 bits, as plain numbers. *)
Lemma analyze_file_exact loc fs conf st f :
  analyze_file loc fs conf = Ok st → fs !! input_path conf = Some f →
  on_disk_size f < two64 →
  let ls := stream_lines {| unread := file_data f; failed := false |} in
  line_split (file_data f) ls ∧
  (length (lines_tokens loc ls) ≤ String.length (file_data f))%nat ∧
  lines st = N.of_nat (length ls) ∧
  words st = N.of_nat (length (lines_tokens loc ls)) ∧
  freq st = tally (fold_case loc conf <$> lines_tokens loc ls).
Proof.
  intros H Hf Hsize ls.
  apply analyze_file_Ok in H as (f' & Hf' & _ & Hl & Hw & Hfr & _).
  rewrite Hf in Hf'. injection Hf' as <-. fold ls in Hl, Hw, Hfr.
  pose proof (stream_lines_split {| unread := file_data f; failed := false |}
                eq_refl) as Hsplit.
  fold ls in Hsplit. simpl in Hsplit.
  pose proof (line_split_length _ _ Hsplit) as Hlen.
  pose proof (count_lf_length (file_data f)) as Hle.
  pose proof (lines_tokens_length loc ls) as H1.
  pose proof (stream_lines_length {| unread := file_data f; failed := false |}) as H2.
  fold ls in H2. simpl in H2. unfold on_disk_size in Hsize.
  repeat split; [done|lia| | |done].
  - rewrite Hl. apply wrap64_small. lia.
  - rewrite Hw. apply wrap64_small. lia.
Qed.

(** X9.  The line count of a file is the number of its line feeds, plus
    one when bytes follow the last line feed (or the file holds bytes and
    no line feed): a final line without terminator counts, and an empty
    file has no line. *)
Theorem lines_count_line_feeds loc fs conf st f :
  analyze_file loc fs conf = Ok st → fs !! input_path conf = Some f →
  lines st
  = wrap64 (N.of_nat (count_lf (file_data f)
                      + if unterminated (file_data f) then 1 else 0)).
Proof.
  intros H Hf.
  apply analyze_file_Ok in H as (f' & Hf' & _ & Hl & _).
  rewrite Hf in Hf'. injection Hf' as <-. rewrite Hl. do 2 f_equal.
  apply line_split_length.
  by apply (stream_lines_split {| unread := file_data f; failed := false |}).
Qed.

Lemma lines_count_line_feeds_witness :
  ∃ st, analyze_file c_locale demo_files demo_conf = Ok st ∧
        lines st = wrap64 (N.of_nat (count_lf demo_text
                             + if unterminated demo_text then 1 else 0)).
Proof.
  eexists. split; [by vm_compute|].
  refine (lines_count_line_feeds c_locale demo_files demo_conf _
            (device_file demo_text) _ _); reflexivity.
Defined.



(** X11.  For every file (with content that fits 64 bits) the counters
    are ordered: the number of distinct words is at most the word count,
    and the word count and the line count are each at most the number of
    bytes that were read.  They are at most the byte count as well when
    the size of the file agrees with its content; the byte count of a
    virtual file or a pipe can be below them. *)
Theorem counters_ordered loc fs conf st f :
  analyze_file loc fs conf = Ok st → fs !! input_path conf = Some f →
  on_disk_size f < two64 →
  N.of_nat (size (freq st)) ≤ words st ∧
  words st ≤ on_disk_size f ∧ lines st ≤ on_disk_size f ∧
  (size_agrees f → words st ≤ bytes st ∧ lines st ≤ bytes st).
Proof.
  intros H Hf Hsize.
  assert (N.of_nat (size (freq st)) ≤ words st ∧
          words st ≤ on_disk_size f ∧ lines st ≤ on_disk_size f)
    as (H1 & H2 & H3).
  { destruct (analyze_file_exact loc fs conf st f H Hf Hsize)
      as (Hsplit & Hle & Hl & Hw & Hfr).
    set (ls := stream_lines {| unread := file_data f; failed := false |}) in *.
    rewrite Hl, Hw, Hfr. unfold on_disk_size.
    pose proof (line_split_length _ _ Hsplit) as Hlen.
    pose proof (count_lf_length (file_data f)) as Hcl.
    pose proof (size_list_to_set_length
                  (fold_case loc conf <$> lines_tokens loc ls)) as Hsz.
    rewrite length_fmap in Hsz.
    rewrite <-size_dom, tally_dom. lia. }
  do 3 (split; [done|]). intros Hag.
  by rewrite (analyze_file_size_agrees loc conf fs st f H Hf Hsize Hag).
Qed.

Lemma counters_ordered_witness :
  ∃ st, analyze_file c_locale demo_files demo_conf = Ok st ∧
        N.of_nat (size (freq st)) ≤ words st ∧
        words st ≤ bytes st ∧ lines st ≤ bytes st.
Proof.
  eexists. split; [by vm_compute|].
  destruct (counters_ordered c_locale demo_files demo_conf _
              (device_file demo_text) eq_refl eq_refl eq_refl)
    as (H1 & _ & _ & H2).
  split; [exact H1|]. apply H2. reflexivity.
Defined.

(** *** Concatenation of files *)

Lemma line_split_app s1 ls1 s2 ls2 :
  line_split s1 ls1 → unterminated s1 = false → line_split s2 ls2 →
  line_split (s1 +:+ s2) (ls1 ++ ls2).
Proof.
  intros H1 Hu H2. induction H1 as [|l Hne Hl|l rest ls Hl Hrest IH].
  - done.
  - by rewrite no_lf_unterminated in Hu.
  - rewrite unterminated_app_lf in Hu. rewrite app_assoc_s. simpl.
    apply line_split_lf; [done|]. by apply IH.
Qed.

(** The lines that the [getline] loop extracts from the bytes [s]. *)
Lemma stream_lines_app s1 s2 :
  unterminated s1 = false →
  stream_lines {| unread := s1 +:+ s2; failed := false |}
  = stream_lines {| unread := s1; failed := false |}
    ++ stream_lines {| unread := s2; failed := false |}.
Proof.
  intros Hu. apply (line_split_unique (s1 +:+ s2)).
  - by apply (stream_lines_split {| unread := s1 +:+ s2; failed := false |}).
  - apply line_split_app; [|done|].
    + by apply (stream_lines_split {| unread := s1; failed := false |}).
    + by apply (stream_lines_split {| unread := s2; failed := false |}).
Qed.

Lemma lines_tokens_app loc ls1 ls2 :
  lines_tokens loc (ls1 ++ ls2) = lines_tokens loc ls1 ++ lines_tokens loc ls2.
Proof. unfold lines_tokens. by rewrite fmap_app, concat_app. Qed.

Lemma occurrences_app w l1 l2 :
  occurrences w (l1 ++ l2) = (occurrences w l1 + occurrences w l2)%nat.
Proof. unfold occurrences. by rewrite filter_app, length_app. Qed.

(** The count that the table holds for a word, 0 when it holds none. *)
Lemma tally_count ts w :
  default 0 (tally ts !! w) = wrap64 (N.of_nat (occurrences w ts)).
Proof. rewrite tally_lookup. case_decide as E; [by rewrite E|done]. Qed.

Lemma add64_wrap a b : add64 (wrap64 a) (wrap64 b) = wrap64 (a + b).
Proof. unfold add64. by rewrite wrap64_add_l, wrap64_add_r. Qed.

Lemma fold_case_flag loc c1 c2 t :
  case_sensitive c1 = case_sensitive c2 → fold_case loc c1 t = fold_case loc c2 t.
Proof. unfold fold_case. by intros ->. Qed.

(** X12.  Analysing a file that is the concatenation of two files, the
    first of which is empty or ends with a line feed, gives the sums (as
    64-bit numbers) of their line counts, of their word counts and, for
    every word, of their counts of that word. *)
Theorem analysis_of_concatenation loc conf fs1 fs2 fs st1 st2 st f1 f2 f :
  analyze_file loc fs1 conf = Ok st1 → fs1 !! input_path conf = Some f1 →
  analyze_file loc fs2 conf = Ok st2 → fs2 !! input_path conf = Some f2 →
  analyze_file loc fs conf = Ok st → fs !! input_path conf = Some f →
  file_data f = file_data f1 +:+ file_data f2 →
  unterminated (file_data f1) = false →
  lines st = add64 (lines st1) (lines st2) ∧
  words st = add64 (words st1) (words st2) ∧
  ∀ w, default 0 (freq st !! w)
       = add64 (default 0 (freq st1 !! w)) (default 0 (freq st2 !! w)).
Proof.
  intros H1 Hf1 H2 Hf2 H Hf Hdata Hu.
  apply analyze_file_Ok in H1 as (f1' & Hf1' & _ & Hl1 & Hw1 & Hfr1 & _).
  apply analyze_file_Ok in H2 as (f2' & Hf2' & _ & Hl2 & Hw2 & Hfr2 & _).
  apply analyze_file_Ok in H as (f' & Hf' & _ & Hl & Hw & Hfr & _).
  rewrite Hf1 in Hf1'. injection Hf1' as <-.
  rewrite Hf2 in Hf2'. injection Hf2' as <-.
  rewrite Hf in Hf'. injection Hf' as <-.
  rewrite Hdata, stream_lines_app in Hl, Hw, Hfr by done.
  rewrite lines_tokens_app in Hw, Hfr.
  rewrite Hl, Hl1, Hl2, Hw, Hw1, Hw2, Hfr, Hfr1, Hfr2.
  rewrite !add64_wrap, !length_app, !Nat2N.inj_add. split; [done|]. split; [done|].
  intros w. rewrite !tally_count, add64_wrap, fmap_app, occurrences_app.
  by rewrite Nat2N.inj_add.
Qed.

(** Two files and their concatenation. *)
Lemma analysis_of_concatenation_witness :
  ∃ st1 st2 st,
    analyze_file c_locale
      {[ "demo.txt" := regular_file ("b b a a" +:+ LF) ]} demo_conf = Ok st1 ∧
    analyze_file c_locale demo_files demo_conf = Ok st2 ∧
    analyze_file c_locale
      {[ "demo.txt" := regular_file (("b b a a" +:+ LF) +:+ demo_text) ]}
      demo_conf = Ok st ∧
    lines st = add64 (lines st1) (lines st2) ∧
    words st = add64 (words st1) (words st2).
Proof.
  eexists _, _, _. split; [by vm_compute|]. split; [by vm_compute|].
  split; [by vm_compute|].
  refine ((λ H, conj (proj1 H) (proj1 (proj2 H)))
    (analysis_of_concatenation c_locale demo_conf
      {[ "demo.txt" := regular_file ("b b a a" +:+ LF) ]}
      demo_files
      {[ "demo.txt" := regular_file (("b b a a" +:+ LF) +:+ demo_text) ]}
      _ _ _
      (regular_file ("b b a a" +:+ LF))
      (device_file demo_text)
      (regular_file (("b b a a" +:+ LF) +:+ demo_text))
      _ _ _ _ _ _ _ _)).
  - by vm_compute.
  - by vm_compute.
  - by vm_compute.
  - by vm_compute.
  - by vm_compute.
  - by vm_compute.
  - reflexivity.
  - by vm_compute.
Defined.

(** *** Line endings *)

Lemma to_crlf_no_lf l :
  all_chars (λ ch, bool_decide (ch ≠ newline)) l = true → to_crlf l = l.
Proof.
  induction l as [|ch l IH]; simpl; [done|].
  intros [Hch Hl]%andb_true_iff. apply bool_decide_eq_true in Hch.
  rewrite decide_False by done. by rewrite IH.
Qed.

Lemma to_crlf_app_lf l rest :
  all_chars (λ ch, bool_decide (ch ≠ newline)) l = true →
  to_crlf (l +:+ String newline rest)
  = (l +:+ String CR "") +:+ String newline (to_crlf rest).
Proof.
  induction l as [|ch l IH]; simpl; [done|].
  intros [Hch Hl]%andb_true_iff. apply bool_decide_eq_true in Hch.
  rewrite decide_False by done. by rewrite IH.
Qed.

Lemma raw_tokens_trailing_separator loc pending l ch :
  is_word_char loc ch = false →
  raw_tokens loc pending (l +:+ String ch "") = raw_tokens loc pending l.
Proof.
  intros Hch. revert pending. induction l as [|c l IH]; intros pending; simpl.
  - rewrite Hch. simpl. by rewrite app_nil_r.
  - destruct (is_word_char loc c); by rewrite IH.
Qed.

Lemma line_split_to_crlf loc s ls :
  is_word_char loc CR = false → line_split s ls →
  ∃ ls', line_split (to_crlf s) ls' ∧ length ls' = length ls ∧
         lines_tokens loc ls' = lines_tokens loc ls.
Proof.
  intros Hcr. induction 1 as [|l Hne Hl|l rest ls Hl Hrest (ls' & IH1 & IH2 & IH3)].
  - exists []. by repeat split; [constructor|..].
  - exists [l]. rewrite to_crlf_no_lf by done. by repeat split; [constructor|..].
  - exists ((l +:+ String CR "") :: ls'). rewrite to_crlf_app_lf by done.
    split; [|split].
    + apply line_split_lf; [|done]. by rewrite all_chars_app, Hl.
    + simpl. by rewrite IH2.
    + unfold lines_tokens in *. rewrite !fmap_cons, !concat_cons, IH3.
      by rewrite raw_tokens_trailing_separator.
Qed.

(** X13.  Line endings do not matter to the counts: when the carriage
    return is no word character, a file and the same file with every line
    feed turned into carriage return and line feed have the same line
    count, the same word count and the same frequency table. *)
Theorem crlf_same_counts loc conf fs fs' st st' f f' :
  is_word_char loc (ascii_of_N 13) = false →
  analyze_file loc fs conf = Ok st → fs !! input_path conf = Some f →
  analyze_file loc fs' conf = Ok st' → fs' !! input_path conf = Some f' →
  file_data f' = to_crlf (file_data f) →
  lines st' = lines st ∧ words st' = words st ∧ freq st' = freq st.
Proof.
  intros Hcr H Hf H' Hf' Hdata.
  apply analyze_file_Ok in H as (g & Hg & _ & Hl & Hw & Hfr & _).
  apply analyze_file_Ok in H' as (g' & Hg' & _ & Hl' & Hw' & Hfr' & _).
  rewrite Hf in Hg. injection Hg as <-.
  rewrite Hf' in Hg'. injection Hg' as <-.
  pose proof (stream_lines_split {| unread := file_data f; failed := false |}
                eq_refl) as Hs.
  pose proof (stream_lines_split {| unread := file_data f'; failed := false |}
                eq_refl) as Hs'.
  simpl in Hs, Hs'. rewrite Hdata in Hs' at 1.
  destruct (line_split_to_crlf loc _ _ Hcr Hs) as (ls' & Hsplit & Hlen & Htok).
  rewrite (line_split_unique _ _ _ Hs' Hsplit) in Hl', Hw', Hfr'.
  rewrite Hl, Hl', Hw, Hw', Hfr, Hfr', Hlen, Htok. done.
Qed.

Lemma crlf_same_counts_witness :
  ∃ st st',
    analyze_file c_locale demo_files demo_conf = Ok st ∧
    analyze_file c_locale
      {[ "demo.txt" := regular_file (to_crlf demo_text) ]} demo_conf = Ok st' ∧
    lines st' = lines st ∧ words st' = words st ∧ freq st' = freq st.
Proof.
  eexists _, _. split; [by vm_compute|]. split; [by vm_compute|].
  refine (crlf_same_counts c_locale demo_conf demo_files
    {[ "demo.txt" := regular_file (to_crlf demo_text) ]} _ _
    (device_file demo_text)
    (regular_file (to_crlf demo_text)) _ _ _ _ _ _).
  - reflexivity.
  - by vm_compute.
  - reflexivity.
  - by vm_compute.
  - reflexivity.
  - reflexivity.
Defined.

(** *** Counts written in decimal are read back by [--top] *)

Lemma decimal_value_cons d ds :
  decimal_value (d :: ds) = d * 10 ^ N.of_nat (length ds) + decimal_value ds.
Proof.
  unfold decimal_value. simpl.
  assert (∀ acc, foldl (λ acc d, 10 * acc + d) acc ds
                 = acc * 10 ^ N.of_nat (length ds)
                   + foldl (λ acc d, 10 * acc + d) 0 ds) as Hgen.
  { induction ds as [|x ds IH]; intros acc; simpl length.
    - simpl. lia.
    - cbn [foldl]. rewrite (IH (10 * acc + x)), (IH (10 * 0 + x)).
      rewrite Nat2N.inj_succ, N.pow_succ_r'. lia. }
  rewrite (Hgen (10 * 0 + d)). f_equal; lia.
Qed.

Lemma pretty_N_char_digit d :
  d < 10 →
  ascii_digit (pretty_N_char d) = true ∧ N_of_ascii (pretty_N_char d) - 48 = d.
Proof.
  intros Hd.
  assert (d = 0 ∨ d = 1 ∨ d = 2 ∨ d = 3 ∨ d = 4 ∨ d = 5 ∨ d = 6 ∨ d = 7
          ∨ d = 8 ∨ d = 9) as Hcases by lia.
  repeat destruct Hcases as [->|Hcases]; try subst d; by vm_compute.
Qed.

Lemma pretty_N_go_value x s :
  decimal_value (leading_digits (pretty_N_go x s))
  = x * 10 ^ N.of_nat (length (leading_digits s))
    + decimal_value (leading_digits s).
Proof.
  revert s. induction (N.lt_wf_0 x) as [x _ IH]; intros s.
  destruct (decide (x = 0)) as [->|Hx].
  - rewrite pretty_N_go_0. lia.
  - rewrite pretty_N_go_step by lia.
    rewrite IH by (apply N.div_lt; lia).
    destruct (pretty_N_char_digit (x `mod` 10)) as [Hd Hv];
      [by apply N.mod_lt|].
    cbn [leading_digits]. rewrite Hd, Hv, decimal_value_cons. cbn [length].
    rewrite Nat2N.inj_succ, N.pow_succ_r'.
    pose proof (N.div_mod x 10 ltac:(done)) as Hdm.
    set (p := 10 ^ N.of_nat (length (leading_digits s))).
    set (q := x `div` 10) in *. set (r := x `mod` 10) in *.
    clearbody p q r. subst x. ring.
Qed.

Lemma pretty_digits n :
  decimal_value (leading_digits (pretty n)) = n ∧
  ∃ ch rest, pretty n = String ch rest ∧ ascii_digit ch = true.
Proof.
  assert (decimal_value (leading_digits (pretty n)) = n) as Hv.
  { unfold pretty, pretty_N. case_decide as E; [by rewrite E|].
    rewrite pretty_N_go_value.
    change (leading_digits "") with (@nil N).
    change (decimal_value []) with 0.
    change (N.of_nat (length (@nil N))) with 0. rewrite N.pow_0_r. lia. }
  split; [done|].
  unfold pretty, pretty_N in *. case_decide as E; [by eexists _, _|].
  destruct (pretty_N_go n "") as [|ch rest]; [simpl in Hv; by rewrite <-Hv in E|].
  exists ch, rest. split; [done|].
  cbn [leading_digits] in Hv. destruct (ascii_digit ch); [done|].
  simpl in Hv. by rewrite <-Hv in E.
Qed.

Lemma stoul_pretty loc n :
  (∀ ch, ascii_digit ch = true → isspace loc ch = false) →
  n < two64 → stoul loc (pretty n) = Stoul n.
Proof.
  intros Hsp Hn. destruct (pretty_digits n) as [Hv (ch & rest & E & Hd)].
  unfold stoul. rewrite E in *. cbn [skip_space]. rewrite (Hsp ch Hd).
  assert (ch ≠ ascii_of_N 45 ∧ ch ≠ ascii_of_N 43) as [H1 H2].
  { split; intros ->; by vm_compute in Hd. }
  rewrite !decide_False by done.
  destruct (leading_digits (String ch rest)) as [|d ds] eqn:El.
  { cbn [leading_digits] in El. by rewrite Hd in El. }
  rewrite Hv. by destruct (N.leb_spec two64 n); [lia|].
Qed.

(** X14.  [--top] reads back every count as the program prints it: for
    every [n] below [2^64] written in decimal, the command line parses
    and asks for exactly [n] top words (in a locale where no digit is
    white space). *)
Theorem top_reads_decimal loc exe path n :
  (∀ ch, ascii_digit ch = true → isspace loc ch = false) →
  n < two64 →
  parse_args loc [exe; path; "--top"; pretty n] default_config
  = Parsed true {| input_path := path; json_path := ""; topN := n;
                   case_sensitive := false |} "".
Proof.
  intros Hsp Hn. unfold parse_args. cbn [parse_options].
  rewrite decide_False by (by intros [?|?]).
  rewrite decide_True by done. by rewrite stoul_pretty.
Qed.

Lemma c_locale_digits_not_space ch :
  ascii_digit ch = true → isspace c_locale ch = false.
Proof.
  unfold ascii_digit, in_range. simpl. unfold in_range.
  rewrite andb_true_iff, !N.leb_le. intros [??].
  apply orb_false_iff. split.
  - apply N.eqb_neq. lia.
  - apply andb_false_iff. right. apply N.leb_gt. lia.
Qed.

Lemma top_reads_decimal_witness :
  parse_args c_locale ["file_stats"; "demo.txt"; "--top"; pretty 18446744073709551615]
    default_config
  = Parsed true {| input_path := "demo.txt"; json_path := "";
                   topN := 18446744073709551615; case_sensitive := false |} "".
Proof.
  apply (top_reads_decimal c_locale "file_stats" "demo.txt"
           18446744073709551615 c_locale_digits_not_space).
  by vm_compute.
Defined.

(** *** Keys in the "C" locale *)

Lemma c_locale_word_char ch :
  is_word_char c_locale ch = true →
  (ascii_digit ch || ascii_upper ch || ascii_lower ch) = true ∧
  (ascii_digit (tolower c_locale ch) || ascii_lower (tolower c_locale ch)) = true.
Proof. destruct ch as [[] [] [] [] [] [] [] []]; by vm_compute. Qed.

Lemma all_chars_impl (p q : ascii → bool) s :
  (∀ ch, p ch = true → q ch = true) →
  all_chars p s = true → all_chars q s = true.
Proof.
  intros Hpq. induction s as [|ch s IH]; [done|]. simpl.
  intros [H1 H2]%andb_true_iff. by rewrite (Hpq ch H1), IH.
Qed.

Lemma all_chars_map (p q : ascii → bool) f s :
  (∀ ch, p ch = true → q (f ch) = true) →
  all_chars p s = true → all_chars q (string_map f s) = true.
Proof.
  intros Hpq. induction s as [|ch s IH]; [done|]. simpl.
  intros [H1 H2]%andb_true_iff. by rewrite (Hpq ch H1), IH.
Qed.

(** X15.  In the "C" locale every key of the frequency table consists of
    ASCII letters and digits only, and of digits and lowercase letters
    only when the run is case-insensitive; [json_escape] therefore writes
    every key unchanged. *)
Theorem c_locale_keys fs conf st w c :
  analyze_file c_locale fs conf = Ok st → freq st !! w = Some c →
  all_chars (λ ch, ascii_digit ch || ascii_upper ch || ascii_lower ch) w = true ∧
  (case_sensitive conf = false →
   all_chars (λ ch, ascii_digit ch || ascii_lower ch) w = true) ∧
  json_escape w = w.
Proof.
  intros H Hw.
  apply analyze_file_Ok in H as (f & Hf & _ & _ & _ & Hfr & _).
  rewrite Hfr, tally_lookup in Hw. case_decide as Hocc; [done|].
  apply occurrences_elem_of in Hocc.
  apply list_elem_of_fmap in Hocc as (t & -> & Ht).
  pose proof (lines_tokens_words c_locale
    (stream_lines {| unread := file_data f; failed := false |})) as Hall.
  rewrite Forall_forall in Hall. destruct (Hall t Ht) as [_ Hword].
  assert (all_chars (λ ch, ascii_digit ch || ascii_upper ch || ascii_lower ch)
            (fold_case c_locale conf t) = true) as Halnum.
  { unfold fold_case. destruct (case_sensitive conf).
    - revert Hword. apply all_chars_impl. intros ch Hch.
      by apply c_locale_word_char.
    - revert Hword. apply all_chars_map. intros ch Hch.
      destruct (c_locale_word_char ch Hch) as [_ Hl].
      apply orb_true_iff in Hl as [->| ->]; [done|]. by rewrite !orb_true_r. }
  split; [done|]. split.
  - intros Hcs. unfold fold_case. rewrite Hcs.
    revert Hword. apply all_chars_map. intros ch Hch.
    by apply c_locale_word_char.
  - apply json_escape_plain. revert Halnum. apply all_chars_impl.
    intros [[] [] [] [] [] [] [] []]; by vm_compute.
Qed.

Lemma c_locale_keys_witness :
  ∃ st, analyze_file c_locale demo_files demo_conf = Ok st ∧
        freq st !! "world" = Some 3 ∧ json_escape "world" = "world".
Proof.
  eexists. split; [by vm_compute|]. split; [by vm_compute|].
  refine (proj2 (proj2 (c_locale_keys demo_files demo_conf _ "world" 3 _ _))).
  - by vm_compute.
  - by vm_compute.
Defined.

(** *** Files without words, and the two case modes *)

Lemma raw_tokens_separators loc line :
  all_chars (separator loc) line = true → raw_tokens loc "" line = [].
Proof.
  induction line as [|ch rest IH]; [done|]. simpl.
  intros [Hch Hrest]%andb_true_iff. unfold separator in Hch.
  apply negb_true_iff in Hch. rewrite Hch. by apply IH.
Qed.

Lemma lines_tokens_separators loc ls :
  Forall (λ l, all_chars (separator loc) l = true) ls → lines_tokens loc ls = [].
Proof.
  unfold lines_tokens. induction 1 as [|l ls Hl _ IH]; [done|].
  by rewrite fmap_cons, concat_cons, raw_tokens_separators, IH.
Qed.

(** X16.  A file that holds no word character (an empty file, or only
    punctuation, white space and line feeds) has word count 0 and an
    empty frequency table, and no top word is reported whatever count is
    asked for. *)
Theorem no_word_characters loc to_vector partial_sort fs conf st f k :
  iteration_order to_vector → std_partial_sort partial_sort →
  analyze_file loc fs conf = Ok st → fs !! input_path conf = Some f →
  all_chars (separator loc) (file_data f) = true →
  words st = 0 ∧ freq st = ∅ ∧ top_k to_vector partial_sort (freq st) k = [].
Proof.
  intros Htv Hps H Hf Hsep.
  apply analyze_file_Ok in H as (f' & Hf' & _ & _ & Hw & Hfr & _).
  rewrite Hf in Hf'. injection Hf' as <-.
  rewrite lines_tokens_separators in Hw, Hfr
    by (by apply (stream_lines_all_chars _
                    {| unread := file_data f; failed := false |})).
  rewrite Hw, Hfr. split; [done|]. split; [done|].
  rewrite (top_k_ranking _ _ Htv Hps). apply take_nil.
Qed.

Lemma no_word_characters_witness :
  ∃ st, analyze_file c_locale
          {[ "demo.txt" := regular_file ("-- ?!" +:+ LF +:+ " ...") ]}
          demo_conf = Ok st ∧
        words st = 0 ∧ freq st = ∅ ∧
        top_k map_to_list sort_all (freq st) 5 = [].
Proof.
  eexists. split; [by vm_compute|].
  refine (no_word_characters c_locale map_to_list sort_all
    {[ "demo.txt" := regular_file ("-- ?!" +:+ LF +:+ " ...") ]}
    demo_conf _
    (regular_file ("-- ?!" +:+ LF +:+ " ...")) 5
    map_to_list_iteration_order sort_all_std _ _ _).
  - by vm_compute.
  - by vm_compute.
  - by vm_compute.
Defined.

Section Filter_keys.
Variable Q : string → Prop.
Context `{!∀ t, Decision (Q t)}.

Lemma filter_freq_incr m t :
  filter (λ kv : string * N, Q kv.1) (freq_incr t m)
  = if decide (Q t) then freq_incr t (filter (λ kv : string * N, Q kv.1) m)
    else filter (λ kv : string * N, Q kv.1) m.
Proof.
  unfold freq_incr. case_decide as Ht.
  - rewrite map_filter_insert_True by done. f_equal. f_equal.
    rewrite map_lookup_filter. destruct (m !! t) as [c|]; simpl; [|done].
    by rewrite option_guard_True.
  - by rewrite map_filter_insert_not.
Qed.

Lemma filter_tally ts :
  filter (λ kv : string * N, Q kv.1) (tally ts) = tally (filter Q ts).
Proof.
  induction ts as [|t ts IH] using rev_ind.
  - by rewrite tally_nil, map_filter_empty.
  - rewrite tally_snoc, filter_freq_incr, IH, filter_app, filter_cons.
    case_decide; simpl.
    + by rewrite tally_snoc.
    + by rewrite app_nil_r.
Qed.
End Filter_keys.

Lemma occurrences_fmap (f : string → string) w ts :
  occurrences w (f <$> ts) = length (filter (λ t, w = f t) ts).
Proof.
  unfold occurrences. induction ts as [|t ts IH]; [done|].
  rewrite fmap_cons, !filter_cons. case_decide; simpl; by rewrite IH.
Qed.

(** X17.  The case-insensitive table is the case-sensitive one merged by
    case folding: its keys are the folded keys of the case-sensitive
    table, and the count of a word is the sum (as a 64-bit number) of the
    case-sensitive counts of all the words that fold to it. *)
Theorem case_folding_merges loc fs (ci cs : Config) sti sts :
  input_path ci = input_path cs →
  case_sensitive ci = false → case_sensitive cs = true →
  analyze_file loc fs ci = Ok sti → analyze_file loc fs cs = Ok sts →
  dom (freq sti) = set_map (string_map (tolower loc)) (dom (freq sts)) ∧
  ∀ w, default 0 (freq sti !! w)
       = wrap64 (total_count
                   (filter (λ kv : string * N, w = string_map (tolower loc) kv.1)
                           (freq sts))).
Proof.
  intros Hp Hci Hcs Hi Hs.
  apply analyze_file_Ok in Hi as (f & Hf & _ & _ & _ & Hfri & _).
  apply analyze_file_Ok in Hs as (f' & Hf' & _ & _ & _ & Hfrs & _).
  rewrite Hp, Hf' in Hf. injection Hf as ->.
  set (ts := lines_tokens loc
               (stream_lines {| unread := file_data f; failed := false |})) in *.
  unfold fold_case in Hfri, Hfrs. rewrite Hci in Hfri. rewrite Hcs in Hfrs.
  rewrite list_fmap_id in Hfrs. rewrite Hfri, Hfrs. split.
  - rewrite !tally_dom.
    apply (list_to_set_fmap_L (C:=gset string) (D:=gset string)).
  - intros w. rewrite tally_count, occurrences_fmap.
    pose proof (filter_tally (λ t, w = string_map (tolower loc) t) ts) as Hft.
    cbn beta in Hft. rewrite Hft. by rewrite tally_total_mod.
Qed.

Lemma case_folding_merges_witness :
  ∃ sti sts,
    analyze_file c_locale demo_files demo_conf = Ok sti ∧
    analyze_file c_locale demo_files
      {| input_path := "demo.txt"; json_path := ""; topN := 3;
         case_sensitive := true |} = Ok sts ∧
    default 0 (freq sti !! "world")
    = wrap64 (total_count
                (filter (λ kv : string * N,
                           "world" = string_map (tolower c_locale) kv.1)
                        (freq sts))).
Proof.
  eexists _, _. split; [by vm_compute|]. split; [by vm_compute|].
  refine (proj2 (case_folding_merges c_locale demo_files demo_conf
    {| input_path := "demo.txt"; json_path := ""; topN := 3;
       case_sensitive := true |} _ _ _ _ _ _ _) "world").
  - reflexivity.
  - reflexivity.
  - reflexivity.
  - by vm_compute.
  - by vm_compute.
Defined.

(** *** The counts of the top words *)

Lemma sum_counts_app l1 l2 :
  sum_counts (l1 ++ l2) = sum_counts l1 + sum_counts l2.
Proof. induction l1 as [|x l1 IH]; simpl; [done|]. rewrite IH. lia. Qed.

Lemma sum_counts_Permutation l1 l2 : l1 ≡ₚ l2 → sum_counts l1 = sum_counts l2.
Proof. induction 1; simpl; lia. Qed.

Lemma total_count_sum_counts m : total_count m = sum_counts (map_to_list m).
Proof.
  unfold total_count. rewrite map_fold_foldr. unfold sum_counts.
  induction (map_to_list m) as [|[w c] l IH]; simpl; [done|]. by rewrite IH.
Qed.

(** X18.  The counts of the reported top words never add up to more than
    the word count, and add up to exactly the word count when at least as
    many words are asked for as the file has distinct words (for a file
    of a size that fits 64 bits). *)
Theorem top_counts_sum to_vector partial_sort loc fs conf st f :
  iteration_order to_vector → std_partial_sort partial_sort →
  analyze_file loc fs conf = Ok st → fs !! input_path conf = Some f →
  on_disk_size f < two64 →
  sum_counts (top_k to_vector partial_sort (freq st) (topN conf)) ≤ words st ∧
  (N.of_nat (size (freq st)) ≤ topN conf →
   sum_counts (top_k to_vector partial_sort (freq st) (topN conf)) = words st).
Proof.
  intros Htv Hps H Hf Hsize.
  destruct (analyze_file_exact loc fs conf st f H Hf Hsize)
    as (_ & Hle & _ & Hw & Hfr).
  assert (words st = sum_counts (ranking (freq st))) as Hsum.
  { rewrite (sum_counts_Permutation _ _ (ranking_Permutation (freq st))).
    rewrite <-total_count_sum_counts, Hfr, tally_total, Hw, length_fmap; [done|].
    rewrite length_fmap. unfold on_disk_size in Hsize. lia. }
  rewrite (top_k_ranking _ _ Htv Hps), Hsum. split.
  - rewrite <-(take_drop (N.to_nat (topN conf)) (ranking (freq st))) at 2.
    rewrite sum_counts_app. lia.
  - intros Hk. rewrite take_ge; [done|]. rewrite ranking_length. lia.
Qed.

Lemma top_counts_sum_witness :
  ∃ st, analyze_file c_locale demo_files demo_conf = Ok st ∧
        sum_counts (top_k map_to_list sort_all (freq st) (topN demo_conf))
        = words st.
Proof.
  eexists. split; [by vm_compute|].
  refine (proj2 (top_counts_sum map_to_list sort_all c_locale demo_files
    demo_conf _
    (device_file demo_text)
    map_to_list_iteration_order sort_all_std _ _ _) _).
  - by vm_compute.
  - by vm_compute.
  - by vm_compute.
  - by vm_compute.
Defined.

(** *** The layout of the JSON document *)

Lemma count_lf_escape_byte c : count_lf (escape_byte c) = 0%nat.
Proof. destruct c as [[] [] [] [] [] [] [] []]; reflexivity. Qed.

Lemma count_lf_json_escape s : count_lf (json_escape s) = 0%nat.
Proof.
  induction s as [|c s IH]; [done|].
  by rewrite json_escape_cons, count_lf_app, count_lf_escape_byte, IH.
Qed.

Lemma count_lf_pretty_N_go x s : count_lf (pretty_N_go x s) = count_lf s.
Proof.
  revert s. induction (N.lt_wf_0 x) as [x _ IH]; intros s.
  destruct (decide (x = 0)) as [->|Hx]; [by rewrite pretty_N_go_0|].
  rewrite pretty_N_go_step by lia. rewrite IH by (apply N.div_lt; lia).
  cbn [count_lf]. rewrite decide_False; [done|].
  unfold pretty_N_char. by repeat case_match.
Qed.

Lemma count_lf_pretty (n : N) : count_lf (pretty n) = 0%nat.
Proof.
  unfold pretty, pretty_N. case_decide; [done|]. by rewrite count_lf_pretty_N_go.
Qed.

(** X19.  The JSON document has a fixed layout whatever bytes the path
    and the words hold: eleven lines, one more line for each top word,
    and the line feeds of the timestamp; [json_escape] lets no line feed
    through. *)
Theorem json_document_lines now conf st top :
  count_lf (json_document now conf st top)
  = (count_lf now + 11 + length top)%nat.
Proof.
  unfold json_document.
  set (items := fix items (l : list (string * N)) : string :=
         match l with
         | [] => ""
         | wc :: l' =>
             "    { " +:+ DQ +:+ "word" +:+ DQ +:+ ": " +:+ DQ
             +:+ json_escape wc.1 +:+ DQ +:+ ", " +:+ DQ +:+ "count" +:+ DQ
             +:+ ": " +:+ pretty wc.2 +:+ " }"
             +:+ (match l' with [] => "" | _ => "," end) +:+ LF +:+ items l'
         end).
  assert (∀ l, count_lf (items l) = length l) as Hitems.
  { induction l as [|wc l IH]; [done|].
    cbn [items length]. fold items.
    rewrite !count_lf_app, count_lf_json_escape, count_lf_pretty, IH.
    destruct l; simpl; lia. }
  rewrite !count_lf_app, !count_lf_json_escape, !count_lf_pretty, Hitems.
  destruct (case_sensitive conf); simpl; lia.
Qed.
